(** * Indicator computation of the stock dashboard (src/app.py)

    Shallow embedding of [get_stock_data]: the MACD(12, 26, 9) columns and
    the recursive KD(9, 3, 3) columns computed from a downloaded frame of
    daily bars.

    Numbers.  The source computes with IEEE doubles.  Here a finite double
    is an exact rational ([Qc], canonical fractions, so that equality is
    Leibniz equality) and the special values +inf, -inf and NaN are kept as
    constructors of [fval]: rounding and overflow are not modelled, the
    propagation of NaN and of the infinities is.  An equality between
    finite values below is an equality of exact rationals (2/3 * 50 +
    1/3 * 50 is 50), which a double computation meets up to rounding only.
    Where a statement turns on the rounding itself, the KD columns are
    computed a second time, in module [B64], with the binary64 operations
    of the Standard Library's [SpecFloat] (round to nearest even).
    The pandas operations the
    source calls ([ewm(span, adjust=False).mean()], [rolling(window).min()],
    element-wise Series arithmetic, [pd.isna]) are modelled from their
    documented behaviour. *)

From Stdlib Require Import String List ZArith QArith Qcanon Lia Lqa Bool Arith.
From Stdlib Require SpecFloat.
Import ListNotations.

Set Implicit Arguments.

Local Open Scope nat_scope.

(** ** Extended values: a float64 cell of a pandas Series *)

Module Float.

Inductive fval : Type :=
| Fin (q : Qc)
| PInf
| NInf
| NaN.

Definition qc (n : Z) (d : positive) : Qc := Q2Qc (n # d).

(** [pd.isna]: true on NaN only; the infinities are not missing values. *)
Definition isna (x : fval) : bool :=
  match x with NaN => true | _ => false end.

Definition isfinite (x : fval) : bool :=
  match x with Fin _ => true | _ => false end.

(** The infinity whose sign is that of a comparison with zero; a zero
    operand gives NaN (0 * inf, 0 / 0). *)
Definition inf_of_sign (c : comparison) : fval :=
  match c with Gt => PInf | Lt => NInf | Eq => NaN end.

Definition sign (q : Qc) : comparison := (q ?= 0)%Qc.

Definition fneg (x : fval) : fval :=
  match x with
  | Fin q => Fin (- q)%Qc
  | PInf => NInf
  | NInf => PInf
  | NaN => NaN
  end.

Definition fadd (x y : fval) : fval :=
  match x, y with
  | NaN, _ | _, NaN => NaN
  | Fin a, Fin b => Fin (a + b)%Qc
  | PInf, NInf | NInf, PInf => NaN
  | PInf, _ | _, PInf => PInf
  | NInf, _ | _, NInf => NInf
  end.

Definition fsub (x y : fval) : fval := fadd x (fneg y).

Definition fmul (x y : fval) : fval :=
  match x, y with
  | NaN, _ | _, NaN => NaN
  | Fin a, Fin b => Fin (a * b)%Qc
  | Fin a, PInf | PInf, Fin a => inf_of_sign (sign a)
  | Fin a, NInf | NInf, Fin a => inf_of_sign (CompOpp (sign a))
  | PInf, PInf | NInf, NInf => PInf
  | PInf, NInf | NInf, PInf => NInf
  end.

(** Division of Series cells never raises: a zero divisor gives an infinity
    of the sign of the dividend, and 0 / 0 gives NaN.  Every divisor of the
    program is a difference [x - y], whose zero is +0. *)
Definition fdiv (x y : fval) : fval :=
  match x, y with
  | NaN, _ | _, NaN => NaN
  | Fin a, Fin b =>
      match sign b with
      | Eq => inf_of_sign (sign a)
      | _ => Fin (a / b)%Qc
      end
  | Fin _, _ => Fin 0%Qc
  | PInf, Fin b => match sign b with Lt => NInf | _ => PInf end
  | NInf, Fin b => match sign b with Lt => PInf | _ => NInf end
  | _, _ => NaN
  end.

End Float.

Import Float.

(** ** The data model: one row of the downloaded frame *)

Record Bar : Type := mkBar {
  timestamp : Z;
  Open : Qc;
  High : Qc;
  Low : Qc;
  Close : Qc;
  Volume : Z
}.

(** The frame after the indicator columns have been assigned. *)
Record DataFrame : Type := mkFrame {
  bars : list Bar;
  MACD : list Qc;
  Signal : list Qc;
  Hist : list Qc;
  RSV : list fval;
  K : list fval;
  D : list fval
}.

(** ** pandas operations *)

Module Pandas.

(** [Series.ewm(span=s, adjust=False).mean()]:
    y[0] = x[0], y[t] = (1 - alpha) * y[t-1] + alpha * x[t],
    alpha = 2 / (s + 1). *)
Definition alpha_of_span (span : positive) : Qc := qc 2 (span + 1).

Fixpoint ewm_from (alpha prev : Qc) (xs : list Qc) : list Qc :=
  match xs with
  | [] => []
  | x :: t =>
      let y := ((1 - alpha) * prev + alpha * x)%Qc in
      y :: ewm_from alpha y t
  end.

Definition ewm_mean (span : positive) (xs : list Qc) : list Qc :=
  match xs with
  | [] => []
  | x :: t => x :: ewm_from (alpha_of_span span) x t
  end.

(** Element-wise arithmetic of two Series on the same index. *)
Definition series_sub (xs ys : list Qc) : list Qc :=
  map (fun p => (fst p - snd p)%Qc) (combine xs ys).

Definition Qcmin (x y : Qc) : Qc :=
  match (x ?= y)%Qc with Gt => y | _ => x end.

Definition Qcmax (x y : Qc) : Qc :=
  match (x ?= y)%Qc with Lt => y | _ => x end.

(** The rows [i - w + 1 .. i] of a column. *)
Definition window_slice (w i : nat) (xs : list Qc) : list Qc :=
  firstn w (skipn (S i - w) xs).

(** [Series.rolling(window=w).agg()] with the default [min_periods = w]:
    NaN until [w] observations are available, then the aggregate of the
    last [w] rows. *)
Definition rolling (agg : Qc -> Qc -> Qc) (w : nat) (xs : list Qc)
  : list fval :=
  map (fun i =>
         if S i <? w then NaN
         else match window_slice w i xs with
              | [] => NaN
              | x :: t => Fin (fold_left agg t x)
              end)
      (seq 0 (length xs)).

Definition rolling_min := rolling Qcmin.
Definition rolling_max := rolling Qcmax.

End Pandas.

Import Pandas.

(** ** get_stock_data *)

(** One cell of [(Close - low_min) / (high_max - low_min) * 100]. *)
Definition rsv_cell (close : Qc) (lo hi : fval) : fval :=
  fmul (fdiv (fsub (Fin close) lo) (fsub hi lo)) (Fin (qc 100 1)).

Fixpoint rsv_column (closes : list Qc) (los his : list fval) : list fval :=
  match closes, los, his with
  | c :: cs, l :: ls, h :: hs => rsv_cell c l h :: rsv_column cs ls hs
  | _, _, _ => []
  end.

(** [if pd.isna(rsv): rsv = 50]. *)
Definition rsv_or_50 (rsv : fval) : fval :=
  if isna rsv then Fin (qc 50 1) else rsv.

Definition smooth (prev cur : fval) : fval :=
  fadd (fmul (Fin (qc 2 3)) prev) (fmul (Fin (qc 1 3)) cur).

(** The body of [for i in range(1, len(df))]: the state is the pair of the
    lists [k_values] and [d_values], read at [-1] and appended to. *)
Definition kd_step (rsvs : list fval) (st : list fval * list fval) (i : nat)
  : list fval * list fval :=
  let (k_values, d_values) := st in
  let rsv := rsv_or_50 (nth i rsvs NaN) in
  let k := smooth (last k_values NaN) rsv in
  let d := smooth (last d_values NaN) k in
  (k_values ++ [k], d_values ++ [d]).

Definition kd_loop (rsvs : list fval) (n : nat) : list fval * list fval :=
  fold_left (kd_step rsvs) (seq 1 (n - 1)) ([Fin (qc 50 1)], [Fin (qc 50 1)]).

(** [get_stock_data] after the download: [df] is the frame returned by
    [yf.download], [None] the result on an empty frame. *)
Definition get_stock_data (df : list Bar) : option DataFrame :=
  match df with
  | [] => None
  | _ :: _ =>
      let close := map Close df in
      let exp12 := ewm_mean 12 close in
      let exp26 := ewm_mean 26 close in
      let macd := series_sub exp12 exp26 in
      let signal := ewm_mean 9 macd in
      let hist := series_sub macd signal in
      let low_min := rolling_min 9 (map Low df) in
      let high_max := rolling_max 9 (map High df) in
      let rsv := rsv_column close low_min high_max in
      let (k_values, d_values) := kd_loop rsv (length df) in
      Some (mkFrame df macd signal hist rsv k_values d_values)
  end.

(** ** The claims' reading of the indicators, index by index *)

Module Spec.

(** [e[0] = x[0]], [e[i] = a * x[i] + b * e[i-1]]. *)
Fixpoint ema_at (a b : Qc) (x : nat -> Qc) (i : nat) : Qc :=
  match i with
  | O => x O
  | S j => (a * x (S j) + b * ema_at a b x j)%Qc
  end.

Definition macd_at (close : nat -> Qc) (i : nat) : Qc :=
  (ema_at (qc 2 13) (qc 11 13) close i
   - ema_at (qc 2 27) (qc 25 27) close i)%Qc.

Definition signal_at (close : nat -> Qc) (i : nat) : Qc :=
  ema_at (qc 2 10) (qc 8 10) (macd_at close) i.

Definition hist_at (close : nat -> Qc) (i : nat) : Qc :=
  (macd_at close i - signal_at close i)%Qc.

(** [K[0] = 50], [K[i] = (2/3) K[i-1] + (1/3) rsv_i]. *)
Fixpoint K_at (rsv : nat -> fval) (i : nat) : fval :=
  match i with
  | O => Fin (qc 50 1)
  | S j => smooth (K_at rsv j) (rsv_or_50 (rsv (S j)))
  end.

(** [D[0] = 50], [D[i] = (2/3) D[i-1] + (1/3) K[i]]. *)
Fixpoint D_at (rsv : nat -> fval) (i : nat) : fval :=
  match i with
  | O => Fin (qc 50 1)
  | S j => smooth (D_at rsv j) (K_at rsv (S j))
  end.

End Spec.

Import Spec.

(** Column [c] read as a function of the index. *)
Definition col (c : list Qc) : nat -> Qc := fun j => nth j c 0%Qc.
Definition fcol (c : list fval) : nat -> fval := fun j => nth j c NaN.

(** ** Columns, claim-side predicates and sample series *)

(** The columns of the result, named as in the source. *)
Definition close_col (df : list Bar) : list Qc := map Close df.
Definition macd_col (df : list Bar) : list Qc :=
  series_sub (ewm_mean 12 (close_col df)) (ewm_mean 26 (close_col df)).
Definition signal_col (df : list Bar) : list Qc := ewm_mean 9 (macd_col df).
Definition hist_col (df : list Bar) : list Qc :=
  series_sub (macd_col df) (signal_col df).
Definition low_min_col (df : list Bar) : list fval :=
  rolling_min 9 (map Low df).
Definition high_max_col (df : list Bar) : list fval :=
  rolling_max 9 (map High df).
Definition rsv_col (df : list Bar) : list fval :=
  rsv_column (close_col df) (low_min_col df) (high_max_col df).

Definition frame_of (df : list Bar) : DataFrame :=
  mkFrame df (macd_col df) (signal_col df) (hist_col df) (rsv_col df)
    (map (K_at (fcol (rsv_col df))) (seq 0 (length df)))
    (map (D_at (fcol (rsv_col df))) (seq 0 (length df))).

(** The indicator fields of row [i], when the row exists in every column. *)
Record Indicators : Type := mkInd {
  macd : Qc;
  signal : Qc;
  hist : Qc;
  k : fval;
  d : fval
}.

Definition indicators_at (r : DataFrame) (i : nat) : option Indicators :=
  match nth_error (MACD r) i, nth_error (Signal r) i, nth_error (Hist r) i,
        nth_error (K r) i, nth_error (D r) i with
  | Some m, Some s, Some h, Some kv, Some dv => Some (mkInd m s h kv dv)
  | _, _, _, _, _ => None
  end.

(** [m] is reached by [x] on [lo .. hi] and is in relation [R] to every
    value of [x] there ([R] is [<=] for a minimum, [>=] for a maximum). *)
Definition is_extremum_over (R : Qc -> Qc -> Prop) (x : nat -> Qc)
  (lo hi : nat) (m : Qc) : Prop :=
  (exists j, lo <= j <= hi /\ x j = m)
  /\ forall j, lo <= j <= hi -> R m (x j).

Definition is_min_over := is_extremum_over Qcle.
Definition is_max_over := is_extremum_over (fun m y => (y <= m)%Qc).

(** Row [i] has its window: [low_min] and [high_max] are the extrema of
    Low and High over the rows [max(0, i - 8) .. i], and RSV is the
    quotient whenever the range of the window is not zero. *)
Definition window_defined_at (df : list Bar) (r : DataFrame) (i : nat) : Prop :=
  exists lo hi,
    is_min_over (col (map Low df)) (i - 8) i lo
    /\ is_max_over (col (map High df)) (i - 8) i hi
    /\ nth i (low_min_col df) NaN = Fin lo
    /\ nth i (high_max_col df) NaN = Fin hi
    /\ (hi <> lo ->
        nth i (RSV r) NaN
        = Fin ((col (close_col df) i - lo) / (hi - lo) * qc 100 1)%Qc).

(** Row [i] has no window yet: the three cells are NaN. *)
Definition window_undefined_at (df : list Bar) (r : DataFrame) (i : nat) : Prop :=
  nth i (low_min_col df) NaN = NaN
  /\ nth i (high_max_col df) NaN = NaN
  /\ nth i (RSV r) NaN = NaN.

(** C3 as the claim states it: every row, the first eight included, has
    its (partial) window. *)
Definition partial_window_claim (df : list Bar) : Prop :=
  forall i, i < length df ->
    exists r, get_stock_data df = Some r /\ window_defined_at df r i.

(** One bar with Low 1, High 3 and Close 2. *)
Definition bar_1_3_2 : Bar := mkBar 0 (qc 2 1) (qc 3 1) (qc 1 1) (qc 2 1) 0.

(** The bar of day [day] with Open = Close = [c], High = [c + 1] and
    Low = [c - 1]. *)
Definition bar_around (day c : Z) : Bar :=
  mkBar day (qc c 1) (qc (c + 1) 1) (qc (c - 1) 1) (qc c 1) 0.

(** Ten consecutive days with closes 100, 101, 102, 101, 100, 99, 98, 99,
    100, 101. *)
Definition ten_bars : list Bar :=
  [bar_around 0 100; bar_around 1 101; bar_around 2 102; bar_around 3 101;
   bar_around 4 100; bar_around 5 99; bar_around 6 98; bar_around 7 99;
   bar_around 8 100; bar_around 9 101].

Definition in_0_100 (x : fval) : Prop :=
  exists q, x = Fin q /\ (0 <= q <= qc 100 1)%Qc.

(** Every bar closes between its low and its high. *)
Definition ordered_bars (df : list Bar) : Prop :=
  forall b, In b df -> (Low b <= Close b <= High b)%Qc.

(** The window of row [i] exists and its high equals its low. *)
Definition zero_range_at (df : list Bar) (i : nat) : Prop :=
  exists v, nth i (low_min_col df) NaN = Fin v
            /\ nth i (high_max_col df) NaN = Fin v.

(** C4 as the claim states it for a series [df] with a zero-range window:
    a frame is returned, RSV counts as 50 in the recursion at every
    zero-range row, and K and D are finite at every row. *)
Definition zero_range_claim (df : list Bar) : Prop :=
  (exists i, i < length df /\ zero_range_at df i) ->
  exists r,
    get_stock_data df = Some r
    /\ forall i, i < length df ->
         (zero_range_at df i -> rsv_or_50 (nth i (RSV r) NaN) = Fin (qc 50 1))
         /\ isfinite (nth i (K r) NaN) = true
         /\ isfinite (nth i (D r) NaN) = true.

(** Nine days with High = Low = 10 and Close = [c]. *)
Definition flat_bar (c day : Z) : Bar :=
  mkBar day (qc 10 1) (qc 10 1) (qc 10 1) (qc c 1) 0.

Definition flat_bars (c : Z) : list Bar :=
  map (flat_bar c) [0; 1; 2; 3; 4; 5; 6; 7; 8]%Z.

(** Every price of the bar is positive.  The source has one outcome
    without a frame, [return None]; it stands for the failure the claims
    speak of. *)
Definition valid_bar (b : Bar) : Prop :=
  (0 < Open b)%Qc /\ (0 < High b)%Qc /\ (0 < Low b)%Qc /\ (0 < Close b)%Qc.

(** The series is empty or has a bar with a non-positive price. *)
Definition invalid_input (df : list Bar) : Prop :=
  df = [] \/ exists b, In b df /\ ~ valid_bar b.

(** C5 as the claim states it: no frame exactly on invalid input. *)
Definition rejects_invalid_claim (df : list Bar) : Prop :=
  get_stock_data df = None <-> invalid_input df.

(** A bar whose close is 0, the other prices being 1. *)
Definition bar_close_0 : Bar := mkBar 0 (qc 1 1) (qc 1 1) (qc 1 1) (qc 0 1) 0.

(** [timestamp] strictly increasing along the series. *)
Fixpoint strictly_ascending (ts : list Z) : bool :=
  match ts with
  | a :: (b :: _) as t => (a <? b)%Z && strictly_ascending t
  | _ => true
  end.

(** C6 as the claim states it: a series whose timestamps are not strictly
    ascending gets no frame. *)
Definition rejects_unordered_claim (df : list Bar) : Prop :=
  strictly_ascending (map timestamp df) = false -> get_stock_data df = None.

(** Two bars of the same day, and the same prices on two successive days. *)
Definition same_day_bars : list Bar := [bar_around 5 100; bar_around 5 101].
Definition next_day_bars : list Bar := [bar_around 5 100; bar_around 6 101].

Definition prices (b : Bar) : Qc * Qc * Qc * Qc :=
  (Open b, High b, Low b, Close b).

(** ** Price transformations and infinite cells *)

(** [scale * x + shift]. *)
Definition affine (scale shift x : Qc) : Qc := (scale * x + shift)%Qc.

(** The bar with every price [x] replaced by [scale * x + shift]. *)
Definition affine_bar (scale shift : Qc) (b : Bar) : Bar :=
  mkBar (timestamp b)
    (affine scale shift (Open b)) (affine scale shift (High b))
    (affine scale shift (Low b)) (affine scale shift (Close b))
    (Volume b).

Definition isinf (x : fval) : bool :=
  match x with PInf | NInf => true | _ => false end.

(** [f] applied to a finite cell; NaN and the infinities are kept. *)
Definition flift (f : Qc -> Qc) (x : fval) : fval :=
  match x with Fin q => Fin (f q) | _ => x end.

(** [lo <= q <= hi]. *)
Definition within (lo hi q : Qc) : Prop := (lo <= q <= hi)%Qc.

(** ** plot_chart and the two blocks of the page

    The Streamlit and Plotly calls are modelled by what they are given: a
    figure is the list of its traces in the order [add_trace] and
    [add_hline] are called, with the data and colours passed to them, and a
    run is the list of the messages and charts sent to the page.  Layout,
    styling and the static elements of the page (title, button, caption,
    separators, subheaders, spinners) are left out, and of the formatted
    header only the values it prints and its colour are kept. *)

Module Page.

Definition color_up : string := "#ff3333".
Definition color_down : string := "#00cc00".

(** [x >= y] on finite values. *)
Definition Qcgeb (x y : Qc) : bool :=
  match (x ?= y)%Qc with Lt => false | _ => true end.

(** [x > y] on finite values. *)
Definition Qcgtb (x y : Qc) : bool :=
  match (x ?= y)%Qc with Gt => true | _ => false end.

(** The [y] argument of a trace: a column of the frame. *)
Inductive Column : Type :=
| ZCol (v : list Z)
| QcCol (v : list Qc)
| FCol (v : list fval).

Inductive Trace : Type :=
| Candlestick (x : list Z) (open high low close : list Qc) (row : nat)
| BarTrace (name : string) (x : list Z) (y : Column)
    (marker_color : list string) (row : nat)
| Scatter (name : string) (x : list Z) (y : Column) (color : string)
    (row : nat)
| HLine (y : Z) (row : nat).

Record Quote : Type := mkQuote {
  last_close : Qc;
  change : Qc;
  pct : fval;
  color : string
}.

Inductive Event : Type :=
| StError (msg : string)
| StWarning (msg : string)
| StHeader (q : Quote)
| StPlotlyChart (fig : list Trace).

Inductive Exn : Type := IndexError.

Inductive result (A : Type) : Type :=
| Ok (a : A)
| Raise (e : Exn).

Arguments Ok {A} a.
Arguments Raise {A} e.

(** [colors_vol]: one colour per pair of [zip(df['Close'], df['Open'])]. *)
Definition colors_vol (closes opens : list Qc) : list string :=
  map (fun co => if Qcgeb (fst co) (snd co) then color_up else color_down)
      (combine closes opens).

(** The colours of the histogram bars: one per cell of [df['Hist']]. *)
Definition colors_hist (hists : list Qc) : list string :=
  map (fun x => if Qcgeb x 0%Qc then color_up else color_down) hists.

Definition plot_chart (df : option DataFrame) (title : string) : list Event :=
  match df with
  | None => [StError ("無法獲取 " ++ title ++ " 數據")%string]
  | Some df =>
      let index := map timestamp (bars df) in
      let fig :=
        [ Candlestick index (map Open (bars df)) (map High (bars df))
            (map Low (bars df)) (map Close (bars df)) 1;
          BarTrace "Volume" index (ZCol (map Volume (bars df)))
            (colors_vol (map Close (bars df)) (map Open (bars df))) 2;
          Scatter "K" index (FCol (K df)) "orange" 3;
          Scatter "D" index (FCol (D df)) "cyan" 3;
          HLine 80 3;
          HLine 20 3;
          BarTrace "MACD Hist" index (QcCol (Hist df))
            (colors_hist (Hist df)) 4;
          Scatter "MACD" index (QcCol (MACD df)) "yellow" 4;
          Scatter "Signal" index (QcCol (Signal df)) "blue" 4 ] in
      [StPlotlyChart fig]
  end.

(** [s.iloc[-k]] for [k >= 1]: the [k]-th cell from the end, IndexError
    when the Series has fewer than [k] cells. *)
Definition iloc_neg (A : Type) (s : list A) (k : nat) : result A :=
  if length s <? k then Raise IndexError
  else match nth_error s (length s - k) with
       | Some v => Ok v
       | None => Raise IndexError
       end.

(** The values of the header: last close, change from the close before,
    change in percent, and the colour. *)
Definition quote (df : DataFrame) : result Quote :=
  let close := map Close (bars df) in
  match iloc_neg close 1 with
  | Raise e => Raise e
  | Ok last =>
      match iloc_neg close 2 with
      | Raise e => Raise e
      | Ok prev =>
          let chg := (last - prev)%Qc in
          let pc := fmul (fdiv (Fin chg) (Fin prev)) (Fin (qc 100 1)) in
          Ok (mkQuote last chg pc
                (if Qcgtb chg 0%Qc then "red" else "green")%string)
      end
  end.

(** One block of the page: [df = get_stock_data(...)], then the header and
    the chart when [df is not None], and the [else] branch when the block
    has one ([warning]). *)
Definition block (title : string) (warning : option string)
  (df : option DataFrame) : result (list Event) :=
  match df with
  | Some d =>
      match quote d with
      | Raise e => Raise e
      | Ok q => Ok (StHeader q :: plot_chart (Some d) title)
      end
  | None =>
      Ok (match warning with Some w => [StWarning w] | None => [] end)
  end.

Definition futures_warning : string :=
  "無法讀取台指期數據 (WTX=F)，可能是盤後或數據源暫時中斷。".

(** The two blocks in order, on the frames downloaded for the index and
    for the futures: the events sent to the page, and the exception that
    stopped the script, if any. *)
Definition page (tse fut : list Bar) : list Event * option Exn :=
  match block "加權指數" None (get_stock_data tse) with
  | Raise e => ([], Some e)
  | Ok ev1 =>
      match block "台指期連續月" (Some futures_warning) (get_stock_data fut) with
      | Raise e => (ev1, Some e)
      | Ok ev2 => (ev1 ++ ev2, None)
      end
  end.

Definition is_error (e : Event) : bool :=
  match e with StError _ => true | _ => false end.

Definition is_chart (e : Event) : bool :=
  match e with StPlotlyChart _ => true | _ => false end.

(** Every data argument of the trace has [n] entries. *)
Definition trace_aligned (n : nat) (t : Trace) : Prop :=
  let col_len c :=
    match c with
    | ZCol v => length v
    | QcCol v => length v
    | FCol v => length v
    end in
  match t with
  | Candlestick x o h l c _ =>
      length x = n /\ length o = n /\ length h = n /\ length l = n
      /\ length c = n
  | BarTrace _ x y mc _ => length x = n /\ col_len y = n /\ length mc = n
  | Scatter _ x y _ _ => length x = n /\ col_len y = n
  | HLine _ _ => True
  end.

End Page.

Import Page.

(** Nine flat days with the close off the flat level, and a tenth day. *)
Definition flat_then_one : list Bar := flat_bars 11 ++ [bar_around 9 12].

(** Two days with the same close. *)
Definition unchanged_close : list Bar := [bar_around 0 100; bar_around 1 100].

(** The bar of day [day] that closes at its high [c], one above its low. *)
Definition bar_at_high (day c : Z) : Bar :=
  mkBar day (qc c 1) (qc c 1) (qc (c - 1) 1) (qc c 1) 0.

(** Eleven days, each closing at its high, one higher than the day
    before. *)
Definition rising_bars : list Bar :=
  [bar_at_high 0 100; bar_at_high 1 101; bar_at_high 2 102;
   bar_at_high 3 103; bar_at_high 4 104; bar_at_high 5 105;
   bar_at_high 6 106; bar_at_high 7 107; bar_at_high 8 108;
   bar_at_high 9 109; bar_at_high 10 110].

(** ** The KD columns in binary64

    The same computation as the KD part of [get_stock_data], on bars whose
    prices are binary64 values: every [-], [/], [*] and [+] of lines 60, 68
    and 69 is the correctly rounded IEEE operation.  The MACD columns are
    not computed here: their rounding is inside pandas' [ewm]. *)

Module B64.

Import SpecFloat.

Definition f64 : Type := spec_float.

Definition prec : Z := 53.
Definition emax : Z := 1024.

Definition add : f64 -> f64 -> f64 := SFadd prec emax.
Definition sub : f64 -> f64 -> f64 := SFsub prec emax.
Definition mul : f64 -> f64 -> f64 := SFmul prec emax.
Definition div : f64 -> f64 -> f64 := SFdiv prec emax.
Definition ltb : f64 -> f64 -> bool := SFltb.

(** The double of an integer literal. *)
Definition of_Z (z : Z) : f64 := binary_normalize prec emax z 0 false.

Definition nan : f64 := S754_nan.

Definition isna (x : f64) : bool :=
  match x with S754_nan => true | _ => false end.

Record Bar : Type := mkBar {
  timestamp : Z;
  Open : f64;
  High : f64;
  Low : f64;
  Close : f64;
  Volume : Z
}.

Record KDFrame : Type := mkKD {
  bars : list Bar;
  low_min : list f64;
  high_max : list f64;
  RSV : list f64;
  K : list f64;
  D : list f64
}.

Definition fmin (x y : f64) : f64 := if ltb y x then y else x.
Definition fmax (x y : f64) : f64 := if ltb x y then y else x.

Definition window_slice (w i : nat) (xs : list f64) : list f64 :=
  firstn w (skipn (S i - w) xs).

(** [Series.rolling(window=w).agg()], [min_periods = w]: NaN until [w]
    rows are available and whenever a row of the window is NaN (then fewer
    than [w] observations are in it). *)
Definition rolling (agg : f64 -> f64 -> f64) (w : nat) (xs : list f64)
  : list f64 :=
  map (fun i =>
         if S i <? w then nan
         else match window_slice w i xs with
              | [] => nan
              | x :: t =>
                  if existsb isna (x :: t) then nan else fold_left agg t x
              end)
      (seq 0 (length xs)).

(** One cell of [(Close - low_min) / (high_max - low_min) * 100]. *)
Definition rsv_cell (close lo hi : f64) : f64 :=
  mul (div (sub close lo) (sub hi lo)) (of_Z 100).

Fixpoint rsv_column (closes los his : list f64) : list f64 :=
  match closes, los, his with
  | c :: cs, l :: ls, h :: hs => rsv_cell c l h :: rsv_column cs ls hs
  | _, _, _ => []
  end.

Definition fifty : f64 := of_Z 50.

(** [if pd.isna(rsv): rsv = 50]. *)
Definition rsv_or_50 (rsv : f64) : f64 := if isna rsv then fifty else rsv.

(** [(2/3) * prev + (1/3) * cur], the two quotients being doubles. *)
Definition smooth (prev cur : f64) : f64 :=
  add (mul (div (of_Z 2) (of_Z 3)) prev) (mul (div (of_Z 1) (of_Z 3)) cur).

Definition kd_step (rsvs : list f64) (st : list f64 * list f64) (i : nat)
  : list f64 * list f64 :=
  let (k_values, d_values) := st in
  let rsv := rsv_or_50 (nth i rsvs nan) in
  let k := smooth (last k_values nan) rsv in
  let d := smooth (last d_values nan) k in
  (k_values ++ [k], d_values ++ [d]).

Definition kd_loop (rsvs : list f64) (n : nat) : list f64 * list f64 :=
  fold_left (kd_step rsvs) (seq 1 (n - 1)) ([fifty], [fifty]).

(** Lines 42-43 and 58-74 of [get_stock_data]. *)
Definition kd_columns (df : list Bar) : option KDFrame :=
  match df with
  | [] => None
  | _ :: _ =>
      let lo := rolling fmin 9 (map Low df) in
      let hi := rolling fmax 9 (map High df) in
      let rsv := rsv_column (map Close df) lo hi in
      let (k_values, d_values) := kd_loop rsv (length df) in
      Some (mkKD df lo hi rsv k_values d_values)
  end.

(** 49.99999999999999, the double next below 50. *)
Definition below_fifty : f64 := S754_finite false 7036874417766399 (-47).

(** The bar of day [day] with all four prices equal to [c]. *)
Definition bar_of (day c : Z) : Bar :=
  mkBar day (of_Z c) (of_Z c) (of_Z c) (of_Z c) 0.

Definition two_bars : list Bar := [bar_of 0 100; bar_of 1 101].

(** C10 as the claim states it: on a series of fewer than 9 bars the
    rolling extrema and RSV are NaN at every index and K and D are 50 at
    every index. *)
Definition constant_50_claim (df : list Bar) : Prop :=
  length df < 9 ->
  exists r,
    kd_columns df = Some r
    /\ forall i, i < length df ->
         nth i (low_min r) fifty = nan /\ nth i (high_max r) fifty = nan
         /\ nth i (RSV r) fifty = nan
         /\ nth i (K r) nan = fifty /\ nth i (D r) nan = fifty.

End B64.

(** ** Arithmetic on canonical rationals *)

Lemma this_plus (x y : Qc) : (this (x + y)%Qc == this x + this y)%Q.
Proof. apply Qred_correct. Qed.

Lemma this_mult (x y : Qc) : (this (x * y)%Qc == this x * this y)%Q.
Proof. apply Qred_correct. Qed.

Lemma this_opp (x : Qc) : (this (- x)%Qc == - this x)%Q.
Proof. apply Qred_correct. Qed.

Lemma this_minus (x y : Qc) : (this (x - y)%Qc == this x - this y)%Q.
Proof. unfold Qcminus. rewrite this_plus, this_opp. reflexivity. Qed.

Lemma this_qc (n : Z) (d : positive) : (this (qc n d) == n # d)%Q.
Proof. apply Qred_correct. Qed.

Ltac qc_closed := apply Qc_is_canon; vm_compute; reflexivity.

Lemma one_minus_alpha12 : (1 - alpha_of_span 12 = qc 11 13)%Qc.
Proof. qc_closed. Qed.

Lemma one_minus_alpha26 : (1 - alpha_of_span 26 = qc 25 27)%Qc.
Proof. qc_closed. Qed.

Lemma one_minus_alpha9 : (1 - alpha_of_span 9 = qc 8 10)%Qc.
Proof. qc_closed. Qed.

(** ** Lists read by index *)

Lemma nth_map_seq (A : Type) (f : nat -> A) (n i : nat) (d : A) :
  i < n -> nth i (map f (seq 0 n)) d = f i.
Proof.
  intros Hi.
  rewrite (nth_indep _ d (f 0)) by (rewrite length_map, length_seq; exact Hi).
  rewrite (map_nth f (seq 0 n) 0 i), seq_nth by exact Hi.
  reflexivity.
Qed.

Lemma last_map_seq (A : Type) (f : nat -> A) (m : nat) (d : A) :
  last (map f (seq 0 (S m))) d = f m.
Proof.
  rewrite seq_S, map_app. simpl. apply last_last.
Qed.

(** ** The exponential moving average *)

Lemma ewm_from_length (a : Qc) (xs : list Qc) :
  forall prev, length (ewm_from a prev xs) = length xs.
Proof.
  induction xs as [|x t IH]; intros prev; simpl; [reflexivity|].
  now rewrite IH.
Qed.

Lemma ewm_mean_length (s : positive) (xs : list Qc) :
  length (ewm_mean s xs) = length xs.
Proof.
  destruct xs as [|x t]; simpl; [reflexivity|].
  now rewrite ewm_from_length.
Qed.

Lemma ewm_from_nth (a : Qc) (xs : list Qc) :
  forall prev i, i < length xs ->
    nth i (ewm_from a prev xs) 0%Qc
    = ((1 - a) * nth i (prev :: ewm_from a prev xs) 0 + a * nth i xs 0)%Qc.
Proof.
  induction xs as [|x t IH]; intros prev i Hi; simpl in Hi; [lia|].
  destruct i as [|i]; [reflexivity|].
  cbn [ewm_from nth]. apply IH. lia.
Qed.

Lemma ewm_mean_ema_at (s : positive) (b : Qc) (xs : list Qc) :
  (1 - alpha_of_span s)%Qc = b ->
  forall i, i < length xs ->
    nth i (ewm_mean s xs) 0%Qc = ema_at (alpha_of_span s) b (col xs) i.
Proof.
  intros Hb i. induction i as [|i IH]; intros Hi.
  - destruct xs; [simpl in Hi; lia | reflexivity].
  - destruct xs as [|x t]; [simpl in Hi; lia|].
    cbn [ema_at]. rewrite <- IH by lia. rewrite <- Hb.
    cbn [ewm_mean]. cbn [nth]. simpl in Hi.
    rewrite ewm_from_nth by lia.
    unfold col. cbn [nth]. ring.
Qed.

Lemma ema_at_ext (a b : Qc) (x y : nat -> Qc) (i : nat) :
  (forall j, j <= i -> x j = y j) -> ema_at a b x i = ema_at a b y i.
Proof.
  induction i as [|i IH]; intros H; cbn [ema_at].
  - apply H. lia.
  - rewrite IH by (intros; apply H; lia). rewrite (H (S i)) by lia.
    reflexivity.
Qed.

Lemma series_sub_length (xs ys : list Qc) :
  length xs = length ys -> length (series_sub xs ys) = length xs.
Proof.
  intros H. unfold series_sub. rewrite length_map, length_combine. lia.
Qed.

Lemma series_sub_nth (xs ys : list Qc) (i : nat) :
  length xs = length ys -> i < length xs ->
  nth i (series_sub xs ys) 0%Qc = (nth i xs 0 - nth i ys 0)%Qc.
Proof.
  intros Hl Hi. unfold series_sub.
  rewrite (nth_indep _ 0%Qc ((fun p => (fst p - snd p)%Qc) (0%Qc, 0%Qc)))
    by (rewrite length_map, length_combine; lia).
  rewrite (map_nth (fun p => (fst p - snd p)%Qc)), combine_nth by exact Hl.
  reflexivity.
Qed.

(** ** The K/D loop *)

Lemma kd_fold_spec (rsvs : list fval) (m : nat) :
  fold_left (kd_step rsvs) (seq 1 m) ([Fin (qc 50 1)], [Fin (qc 50 1)])
  = (map (K_at (fcol rsvs)) (seq 0 (S m)), map (D_at (fcol rsvs)) (seq 0 (S m))).
Proof.
  induction m as [|m IH]; [reflexivity|].
  rewrite seq_S, fold_left_app, IH. cbn [fold_left kd_step].
  rewrite !last_map_seq.
  rewrite (seq_S (S m)), !map_app. cbn [map Nat.add K_at D_at].
  reflexivity.
Qed.

Lemma kd_loop_spec (rsvs : list fval) (n : nat) :
  1 <= n ->
  kd_loop rsvs n
  = (map (K_at (fcol rsvs)) (seq 0 n), map (D_at (fcol rsvs)) (seq 0 n)).
Proof.
  intros Hn. unfold kd_loop. rewrite kd_fold_spec.
  replace (S (n - 1)) with n by lia. reflexivity.
Qed.

Lemma get_stock_data_eq (df : list Bar) :
  df <> [] -> get_stock_data df = Some (frame_of df).
Proof.
  intros Hne. destruct df as [|b t]; [congruence|].
  unfold get_stock_data.
  change (rsv_column _ _ _) with (rsv_col (b :: t)).
  rewrite kd_loop_spec by (simpl; lia).
  reflexivity.
Qed.

Lemma macd_col_length (df : list Bar) : length (macd_col df) = length df.
Proof.
  unfold macd_col. rewrite series_sub_length; rewrite !ewm_mean_length;
    unfold close_col; now rewrite ?length_map.
Qed.

Lemma signal_col_length (df : list Bar) : length (signal_col df) = length df.
Proof. unfold signal_col. now rewrite ewm_mean_length, macd_col_length. Qed.

Lemma hist_col_length (df : list Bar) : length (hist_col df) = length df.
Proof.
  unfold hist_col. rewrite series_sub_length; rewrite ?signal_col_length;
    now rewrite macd_col_length.
Qed.

Lemma macd_col_nth (df : list Bar) (i : nat) :
  i < length df ->
  nth i (macd_col df) 0%Qc = macd_at (col (close_col df)) i.
Proof.
  intros Hi. unfold macd_col, macd_at.
  assert (Hc : length (close_col df) = length df)
    by (unfold close_col; apply length_map).
  rewrite series_sub_nth by (rewrite ?ewm_mean_length; lia).
  rewrite (@ewm_mean_ema_at _ _ _ one_minus_alpha12) by lia.
  rewrite (@ewm_mean_ema_at _ _ _ one_minus_alpha26) by lia.
  reflexivity.
Qed.

Lemma signal_col_nth (df : list Bar) (i : nat) :
  i < length df ->
  nth i (signal_col df) 0%Qc = signal_at (col (close_col df)) i.
Proof.
  intros Hi. unfold signal_col, signal_at.
  rewrite (@ewm_mean_ema_at _ _ _ one_minus_alpha9) by (rewrite macd_col_length; lia).
  apply ema_at_ext. intros j Hj. unfold col at 1.
  apply macd_col_nth. lia.
Qed.

Lemma hist_col_nth (df : list Bar) (i : nat) :
  i < length df ->
  nth i (hist_col df) 0%Qc = hist_at (col (close_col df)) i.
Proof.
  intros Hi. unfold hist_col, hist_at.
  rewrite series_sub_nth
    by (rewrite ?signal_col_length, macd_col_length; lia).
  now rewrite macd_col_nth, signal_col_nth.
Qed.

(** ** MACD *)

(** C1: on every non-empty series the MACD, signal and histogram columns
    have one value per bar and are, at every index, the full-history
    recursive averages seeded at the first close:
    e12[0] = close[0], e12[i] = 2/13 close[i] + 11/13 e12[i-1] (e26 with
    2/27 and 25/27), macd = e12 - e26, signal[0] = macd[0],
    signal[i] = 2/10 macd[i] + 8/10 signal[i-1], hist = macd - signal. *)
Theorem macd_full_history_recursion (b : Bar) (t : list Bar) :
  exists r,
    get_stock_data (b :: t) = Some r
    /\ length (MACD r) = length (b :: t)
    /\ length (Signal r) = length (b :: t)
    /\ length (Hist r) = length (b :: t)
    /\ forall i, i < length (b :: t) ->
         nth i (MACD r) 0%Qc = macd_at (col (map Close (b :: t))) i
         /\ nth i (Signal r) 0%Qc = signal_at (col (map Close (b :: t))) i
         /\ nth i (Hist r) 0%Qc = hist_at (col (map Close (b :: t))) i.
Proof.
  eexists. split; [apply get_stock_data_eq; discriminate|]. cbn [MACD Signal Hist frame_of].
  repeat split.
  - apply macd_col_length.
  - apply signal_col_length.
  - apply hist_col_length.
  - now apply macd_col_nth.
  - now apply signal_col_nth.
  - now apply hist_col_nth.
Qed.

(** ** KD *)

(** C2: on every non-empty series K[0] = D[0] = 50 whatever the first RSV
    is, and for i >= 1, K[i] = 2/3 K[i-1] + 1/3 rsv_i and
    D[i] = 2/3 D[i-1] + 1/3 K[i], where rsv_i is RSV[i] unless [pd.isna]
    holds of it, and 50 then. *)
Theorem kd_seed_and_recursion (b : Bar) (t : list Bar) :
  exists r,
    get_stock_data (b :: t) = Some r
    /\ length (K r) = length (b :: t)
    /\ length (D r) = length (b :: t)
    /\ nth 0 (K r) NaN = Fin (qc 50 1)
    /\ nth 0 (D r) NaN = Fin (qc 50 1)
    /\ forall i, 1 <= i < length (b :: t) ->
         let rsv_i := if isna (nth i (RSV r) NaN) then Fin (qc 50 1)
                      else nth i (RSV r) NaN in
         nth i (K r) NaN
         = fadd (fmul (Fin (qc 2 3)) (nth (i - 1) (K r) NaN))
                (fmul (Fin (qc 1 3)) rsv_i)
         /\ nth i (D r) NaN
            = fadd (fmul (Fin (qc 2 3)) (nth (i - 1) (D r) NaN))
                   (fmul (Fin (qc 1 3)) (nth i (K r) NaN)).
Proof.
  eexists. split; [apply get_stock_data_eq; discriminate|].
  cbn [K D RSV frame_of].
  split; [now rewrite length_map, length_seq|].
  split; [now rewrite length_map, length_seq|].
  split; [reflexivity|]. split; [reflexivity|].
  intros i [H1 Hi]. cbv zeta.
  destruct i as [|j]; [lia|]. replace (S j - 1) with j by lia.
  rewrite !nth_map_seq by lia. split; reflexivity.
Qed.

(** C7: on a series of one bar, K = D = 50, macd = 0, signal = macd and
    hist = 0 at the only index. *)
Theorem single_bar_values (b : Bar) :
  exists r,
    get_stock_data [b] = Some r
    /\ K r = [Fin (qc 50 1)]
    /\ D r = [Fin (qc 50 1)]
    /\ MACD r = [0%Qc]
    /\ Signal r = MACD r
    /\ Hist r = [0%Qc].
Proof.
  eexists. split; [apply get_stock_data_eq; discriminate|].
  cbn [K D MACD Signal Hist frame_of].
  unfold hist_col, signal_col, macd_col, close_col, series_sub.
  cbn [map ewm_mean ewm_from combine fst snd length seq K_at D_at].
  unfold Qcminus. rewrite !Qcplus_opp_r. repeat split; reflexivity.
Qed.

(** C8: appending a bar to a non-empty series leaves the five indicator
    fields of index 0 as they were. *)
Theorem index0_prefix_stable (b : Bar) (t : list Bar) (x : Bar) :
  exists r r' v,
    get_stock_data (b :: t) = Some r
    /\ get_stock_data ((b :: t) ++ [x]) = Some r'
    /\ indicators_at r 0 = Some v
    /\ indicators_at r' 0 = Some v.
Proof.
  do 3 eexists.
  split; [apply get_stock_data_eq; discriminate|].
  split; [apply get_stock_data_eq; discriminate|].
  split; reflexivity.
Qed.

(** ** Rolling windows *)

Lemma Qcmin_l (x y : Qc) : (Qcmin x y <= x)%Qc.
Proof.
  unfold Qcmin. destruct (x ?= y)%Qc eqn:E; try apply Qcle_refl.
  apply Qclt_le_weak. now apply Qcgt_alt in E.
Qed.

Lemma Qcmin_r (x y : Qc) : (Qcmin x y <= y)%Qc.
Proof.
  unfold Qcmin. destruct (x ?= y)%Qc eqn:E; try apply Qcle_refl.
  - apply Qceq_alt in E. subst. apply Qcle_refl.
  - apply Qclt_le_weak. now apply Qclt_alt.
Qed.

Lemma Qcmax_l (x y : Qc) : (x <= Qcmax x y)%Qc.
Proof.
  unfold Qcmax. destruct (x ?= y)%Qc eqn:E; try apply Qcle_refl.
  apply Qclt_le_weak. now apply Qclt_alt.
Qed.

Lemma Qcmax_r (x y : Qc) : (y <= Qcmax x y)%Qc.
Proof.
  unfold Qcmax. destruct (x ?= y)%Qc eqn:E; try apply Qcle_refl.
  - apply Qceq_alt in E. subst. apply Qcle_refl.
  - apply Qclt_le_weak. now apply Qcgt_alt in E.
Qed.

Lemma Qcmin_cases (x y : Qc) : Qcmin x y = x \/ Qcmin x y = y.
Proof. unfold Qcmin. destruct (x ?= y)%Qc; auto. Qed.

Lemma Qcmax_cases (x y : Qc) : Qcmax x y = x \/ Qcmax x y = y.
Proof. unfold Qcmax. destruct (x ?= y)%Qc; auto. Qed.

Section Rolling.

Variable agg : Qc -> Qc -> Qc.
Variable R : Qc -> Qc -> Prop.
Hypothesis R_refl : forall x, R x x.
Hypothesis R_trans : forall x y z, R x y -> R y z -> R x z.
Hypothesis agg_l : forall x y, R (agg x y) x.
Hypothesis agg_r : forall x y, R (agg x y) y.
Hypothesis agg_cases : forall x y, agg x y = x \/ agg x y = y.

Lemma fold_agg_spec (t : list Qc) :
  forall x,
    In (fold_left agg t x) (x :: t)
    /\ forall y, In y (x :: t) -> R (fold_left agg t x) y.
Proof.
  induction t as [|y t IH]; intros x; cbn [fold_left].
  - split; [now left|]. intros z [<-|[]]. apply R_refl.
  - destruct (IH (agg x y)) as [Hin Hle]. split.
    + destruct Hin as [Heq|Hin]; [|right; now right].
      rewrite <- Heq. destruct (agg_cases x y) as [->| ->];
        [now left | right; now left].
    + intros z [<-|[<-|Hz]].
      * eapply R_trans; [apply Hle; now left | apply agg_l].
      * eapply R_trans; [apply Hle; now left | apply agg_r].
      * apply Hle. now right.
Qed.

Lemma rolling_length (w : nat) (xs : list Qc) :
  length (rolling agg w xs) = length xs.
Proof. unfold rolling. now rewrite length_map, length_seq. Qed.

Lemma rolling_nth (w : nat) (xs : list Qc) (i : nat) :
  i < length xs ->
  nth i (rolling agg w xs) NaN
  = if S i <? w then NaN
    else match window_slice w i xs with
         | [] => NaN
         | x :: t => Fin (fold_left agg t x)
         end.
Proof. intros Hi. unfold rolling. now rewrite nth_map_seq. Qed.

(** Before [w] observations are available the cell is NaN. *)
Lemma rolling_nth_warmup (w : nat) (xs : list Qc) (i : nat) :
  i < length xs -> S i < w -> nth i (rolling agg w xs) NaN = NaN.
Proof.
  intros Hi Hw. rewrite rolling_nth by exact Hi.
  apply Nat.ltb_lt in Hw. now rewrite Hw.
Qed.

Lemma window_slice_length (w i : nat) (xs : list Qc) :
  w <= S i -> i < length xs -> length (window_slice w i xs) = w.
Proof.
  intros Hw Hi. unfold window_slice.
  rewrite length_firstn, length_skipn. lia.
Qed.

Lemma window_slice_In (w i : nat) (xs : list Qc) (y : Qc) :
  w <= S i -> i < length xs ->
  In y (window_slice w i xs)
  <-> exists j, S i - w <= j <= i /\ col xs j = y.
Proof.
  intros Hw Hi. split.
  - intros Hin. destruct (In_nth _ _ 0%Qc Hin) as (n & Hn & Hy).
    rewrite window_slice_length in Hn by assumption.
    unfold window_slice in Hy. rewrite nth_firstn, nth_skipn in Hy.
    apply Nat.ltb_lt in Hn as Hn'. rewrite Hn' in Hy.
    exists (S i - w + n). split; [lia | exact Hy].
  - intros (j & Hj & Hy).
    assert (Hn : j - (S i - w) < length (window_slice w i xs))
      by (rewrite window_slice_length by assumption; lia).
    apply (nth_In _ 0%Qc) in Hn. unfold window_slice in Hn at 1.
    rewrite nth_firstn, nth_skipn in Hn.
    assert (Hlt : (j - (S i - w) <? w) = true) by (apply Nat.ltb_lt; lia).
    rewrite Hlt in Hn.
    replace (S i - w + (j - (S i - w))) with j in Hn by lia.
    unfold col in Hy. now rewrite Hy in Hn.
Qed.

(** From index [w - 1] on the cell is the extremum of the last [w] rows. *)
Lemma rolling_nth_window (w : nat) (xs : list Qc) (i : nat) :
  1 <= w -> w <= S i -> i < length xs ->
  exists m, nth i (rolling agg w xs) NaN = Fin m
            /\ is_extremum_over R (col xs) (S i - w) i m.
Proof.
  intros H1 Hw Hi. rewrite rolling_nth by exact Hi.
  assert (Hge : (S i <? w) = false) by (apply Nat.ltb_ge; lia).
  rewrite Hge.
  pose proof (window_slice_length xs Hw Hi) as Hlen.
  pose proof (fun y => window_slice_In xs y Hw Hi) as Hin.
  destruct (window_slice w i xs) as [|x t]; [simpl in Hlen; lia|].
  destruct (fold_agg_spec t x) as [Hm Hall].
  eexists. split; [reflexivity|]. split.
  - now apply Hin.
  - intros j Hj. apply Hall. apply Hin. now exists j.
Qed.

End Rolling.

Lemma rolling_min_window (xs : list Qc) (i : nat) :
  8 <= i < length xs ->
  exists m, nth i (rolling_min 9 xs) NaN = Fin m
            /\ is_min_over (col xs) (i - 8) i m.
Proof.
  intros [H8 Hi]. replace (i - 8) with (S i - 9) by lia.
  apply rolling_nth_window; try lia.
  - apply Qcle_refl.
  - apply Qcle_trans.
  - apply Qcmin_l.
  - apply Qcmin_r.
  - apply Qcmin_cases.
Qed.

Lemma rolling_max_window (xs : list Qc) (i : nat) :
  8 <= i < length xs ->
  exists m, nth i (rolling_max 9 xs) NaN = Fin m
            /\ is_max_over (col xs) (i - 8) i m.
Proof.
  intros [H8 Hi]. replace (i - 8) with (S i - 9) by lia.
  apply (@rolling_nth_window Qcmax (fun m y => (y <= m)%Qc)); try lia.
  - apply Qcle_refl.
  - intros x y z Hxy Hyz. eapply Qcle_trans; eassumption.
  - apply Qcmax_l.
  - apply Qcmax_r.
  - apply Qcmax_cases.
Qed.

(** ** The RSV column *)

Lemma rsv_column_length (cs : list Qc) :
  forall ls hs, length ls = length cs -> length hs = length cs ->
    length (rsv_column cs ls hs) = length cs.
Proof.
  induction cs as [|c cs IH]; intros [|l ls] [|h hs] Hl Hh;
    simpl in *; try lia.
  now rewrite IH by lia.
Qed.

Lemma rsv_column_nth (cs : list Qc) :
  forall ls hs i,
    length ls = length cs -> length hs = length cs -> i < length cs ->
    nth i (rsv_column cs ls hs) NaN
    = rsv_cell (nth i cs 0%Qc) (nth i ls NaN) (nth i hs NaN).
Proof.
  induction cs as [|c cs IH]; intros [|l ls] [|h hs] i Hl Hh Hi;
    simpl in *; try lia.
  destruct i as [|i]; [reflexivity|]. apply IH; lia.
Qed.

Lemma low_min_col_length (df : list Bar) : length (low_min_col df) = length df.
Proof. unfold low_min_col, rolling_min. now rewrite rolling_length, length_map. Qed.

Lemma high_max_col_length (df : list Bar) : length (high_max_col df) = length df.
Proof. unfold high_max_col, rolling_max. now rewrite rolling_length, length_map. Qed.

Lemma rsv_col_length (df : list Bar) : length (rsv_col df) = length df.
Proof.
  unfold rsv_col, close_col.
  rewrite rsv_column_length;
    now rewrite ?low_min_col_length, ?high_max_col_length, length_map.
Qed.

Lemma rsv_col_nth (df : list Bar) (i : nat) :
  i < length df ->
  nth i (rsv_col df) NaN
  = rsv_cell (col (close_col df) i) (nth i (low_min_col df) NaN)
      (nth i (high_max_col df) NaN).
Proof.
  intros Hi. unfold rsv_col.
  apply rsv_column_nth; unfold close_col;
    now rewrite ?low_min_col_length, ?high_max_col_length, length_map.
Qed.

Lemma rsv_col_warmup (df : list Bar) (i : nat) :
  i < length df -> i < 8 -> nth i (rsv_col df) NaN = NaN.
Proof.
  intros Hi H8. rewrite rsv_col_nth by exact Hi.
  unfold low_min_col, rolling_min.
  rewrite rolling_nth_warmup by (rewrite ?length_map; lia).
  reflexivity.
Qed.

Lemma sign_eq (q : Qc) : sign q = Eq <-> q = 0%Qc.
Proof. unfold sign. symmetry. apply Qceq_alt. Qed.

Lemma Qcminus_eq_0 (x y : Qc) : (x - y)%Qc = 0%Qc <-> x = y.
Proof.
  split; intros H.
  - replace x with ((x - y) + y)%Qc by ring. rewrite H. ring.
  - subst. ring.
Qed.

Lemma rsv_cell_nan_lo (c : Qc) (hi : fval) : rsv_cell c NaN hi = NaN.
Proof. reflexivity. Qed.

Lemma rsv_cell_fin (c lo hi : Qc) :
  hi <> lo ->
  rsv_cell c (Fin lo) (Fin hi)
  = Fin ((c - lo) / (hi - lo) * qc 100 1)%Qc.
Proof.
  intros Hne. unfold rsv_cell, fsub, fneg, fadd, fdiv.
  fold (Qcminus c lo). fold (Qcminus hi lo).
  destruct (sign (hi - lo)) eqn:E; try reflexivity.
  apply sign_eq in E. apply -> Qcminus_eq_0 in E. contradiction.
Qed.

Lemma rsv_cell_zero_range (c v : Qc) :
  rsv_cell c (Fin v) (Fin v) = inf_of_sign (sign (c - v)).
Proof.
  unfold rsv_cell, fsub, fneg, fadd, fdiv.
  fold (Qcminus c v). fold (Qcminus v v).
  assert (E : sign (v - v) = Eq) by (apply sign_eq, Qcminus_eq_0; reflexivity).
  rewrite E. destruct (sign (c - v)); reflexivity.
Qed.

Example rsv_of_single_bar :
  option_map RSV (get_stock_data [bar_1_3_2]) = Some [NaN].
Proof. reflexivity. Qed.

(** C3, counterexample: on the one-bar series (Low 1, High 3, Close 2) the
    window of row 0 has range 2, yet low_min[0] is NaN, not 1. *)
Lemma partial_window_claim_fails : ~ partial_window_claim [bar_1_3_2].
Proof.
  intros H. destruct (H 0) as (r & _ & lo & hi & _ & _ & Hlo & _).
  - simpl. lia.
  - vm_compute in Hlo. discriminate.
Qed.

Lemma window_cases (df : list Bar) (i : nat) :
  i < length df ->
  (8 <= i -> window_defined_at df (frame_of df) i)
  /\ (i < 8 -> window_undefined_at df (frame_of df) i).
Proof.
  intros Hi. unfold window_defined_at, window_undefined_at.
  cbn [RSV frame_of]. split.
  - intros H8.
    destruct (@rolling_min_window (map Low df) i) as (lo & Hlo & Hmin);
      [rewrite length_map; lia|].
    destruct (@rolling_max_window (map High df) i) as (hi & Hhi & Hmax);
      [rewrite length_map; lia|].
    exists lo, hi. repeat split; try assumption; try apply Hmin; try apply Hmax.
    intros Hne. rewrite rsv_col_nth by exact Hi.
    unfold low_min_col, high_max_col. rewrite Hlo, Hhi.
    now apply rsv_cell_fin.
  - intros H8. unfold window_undefined_at, low_min_col, high_max_col.
    unfold rolling_min, rolling_max.
    rewrite !rolling_nth_warmup by (rewrite ?length_map; lia).
    split; [reflexivity|]. split; [reflexivity|].
    now apply rsv_col_warmup.
Qed.

(** C3, amended: rows 8 and later have their full nine-row window, with
    RSV the quotient whenever the range is not zero; rows 0 to 7 have NaN
    for low_min, high_max and RSV. *)
Theorem rolling_window_from_row_8 (df : list Bar) (i : nat) :
  i < length df ->
  exists r,
    get_stock_data df = Some r
    /\ (8 <= i -> window_defined_at df r i)
    /\ (i < 8 -> window_undefined_at df r i).
Proof.
  intros Hi. exists (frame_of df).
  split; [apply get_stock_data_eq; intros ->; simpl in Hi; lia|].
  now apply window_cases.
Qed.

Lemma rolling_window_from_row_8_witness :
  8 < length ten_bars
  /\ exists r,
       get_stock_data ten_bars = Some r
       /\ (8 <= 8 -> window_defined_at ten_bars r 8)
       /\ (8 < 8 -> window_undefined_at ten_bars r 8).
Proof.
  assert (H : 8 < length ten_bars) by (simpl; lia).
  split; [exact H | exact (rolling_window_from_row_8 ten_bars H)].
Defined.

(** ** Bounds of K and D *)

Lemma this_Q2Qc (q : Q) : (this (Q2Qc q) == q)%Q.
Proof. apply Qred_correct. Qed.

Lemma this_inv (x : Qc) : (this (/ x)%Qc == / this x)%Q.
Proof. apply Qred_correct. Qed.

Lemma Qc_ratio_bounds (a r : Qc) :
  (0 <= a)%Qc -> (a <= r)%Qc -> (0 < r)%Qc ->
  (0 <= a / r * qc 100 1 <= qc 100 1)%Qc.
Proof.
  unfold Qcle, Qclt, Qcdiv. intros H0 Har Hr.
  rewrite !this_mult, this_inv, this_qc.
  rewrite this_Q2Qc in H0, Hr |- *.
  assert (Hlo : (0 <= this a / this r)%Q)
    by (apply Qle_shift_div_l; [exact Hr | lra]).
  assert (Hhi : (this a / this r <= 1)%Q)
    by (apply Qle_shift_div_r; [exact Hr | lra]).
  unfold Qdiv in Hlo, Hhi.
  set (x := (this a * / this r)%Q) in *. lra.
Qed.

Lemma convex_bounds (p c : Qc) :
  (0 <= p <= qc 100 1)%Qc -> (0 <= c <= qc 100 1)%Qc ->
  (0 <= qc 2 3 * p + qc 1 3 * c <= qc 100 1)%Qc.
Proof.
  unfold Qcle. intros [Hp0 Hp1] [Hc0 Hc1].
  rewrite this_plus, !this_mult, !this_qc.
  rewrite this_Q2Qc, ?this_qc in *. lra.
Qed.

Lemma fifty_in_0_100 : in_0_100 (Fin (qc 50 1)).
Proof. exists (qc 50 1). split; [reflexivity|]. split; vm_compute; discriminate. Qed.

Lemma smooth_in_0_100 (p c : fval) :
  in_0_100 p -> in_0_100 c -> in_0_100 (smooth p c).
Proof.
  intros (pq & -> & Hp) (cq & -> & Hc).
  eexists. split; [reflexivity|]. now apply convex_bounds.
Qed.

Lemma rsv_or_50_in_0_100 (x : fval) :
  x = NaN \/ in_0_100 x -> in_0_100 (rsv_or_50 x).
Proof.
  intros [-> | (q & -> & Hq)]; [apply fifty_in_0_100|].
  exists q. split; [reflexivity | exact Hq].
Qed.

Lemma KD_at_in_0_100 (rsv : nat -> fval) (i : nat) :
  (forall j, j <= i -> rsv j = NaN \/ in_0_100 (rsv j)) ->
  in_0_100 (K_at rsv i) /\ in_0_100 (D_at rsv i).
Proof.
  induction i as [|i IH]; intros H.
  - split; apply fifty_in_0_100.
  - destruct IH as [HK HD]; [intros; apply H; lia|].
    assert (HK' : in_0_100 (K_at rsv (S i))).
    { cbn [K_at]. apply smooth_in_0_100; [exact HK|].
      apply rsv_or_50_in_0_100, H. lia. }
    split; [exact HK'|]. cbn [D_at]. fold (K_at rsv (S i)).
    now apply smooth_in_0_100.
Qed.

Lemma col_map (f : Bar -> Qc) (df : list Bar) (i : nat) (b0 : Bar) :
  i < length df -> col (map f df) i = f (nth i df b0).
Proof.
  intros Hi. unfold col.
  rewrite (nth_indep _ 0%Qc (f b0)) by (now rewrite length_map).
  apply map_nth.
Qed.

(** The close of row [i] lies between the extrema of its window. *)
Lemma window_bracket (df : list Bar) (i : nat) :
  ordered_bars df -> 8 <= i < length df ->
  exists lo hi,
    nth i (low_min_col df) NaN = Fin lo
    /\ nth i (high_max_col df) NaN = Fin hi
    /\ (lo <= col (close_col df) i <= hi)%Qc.
Proof.
  intros Hord [H8 Hi].
  destruct (@rolling_min_window (map Low df) i) as (lo & Hlo & _ & Hmin);
    [rewrite length_map; lia|].
  destruct (@rolling_max_window (map High df) i) as (hi & Hhi & _ & Hmax);
    [rewrite length_map; lia|].
  exists lo, hi. split; [exact Hlo|]. split; [exact Hhi|].
  destruct df as [|b0 t]; [simpl in Hi; lia|].
  specialize (Hmin i ltac:(lia)). specialize (Hmax i ltac:(lia)).
  unfold close_col.
  rewrite (col_map Low _ b0 Hi) in Hmin.
  rewrite (col_map High _ b0 Hi) in Hmax.
  rewrite (col_map Close _ b0 Hi).
  destruct (Hord (nth i (b0 :: t) b0)) as [Hlc Hch]; [now apply nth_In|].
  split; eapply Qcle_trans; eassumption.
Qed.

Lemma rsv_cell_bracket (c lo hi : Qc) :
  (lo <= c <= hi)%Qc ->
  (hi = lo /\ rsv_cell c (Fin lo) (Fin hi) = NaN)
  \/ (hi <> lo /\ in_0_100 (rsv_cell c (Fin lo) (Fin hi))).
Proof.
  intros [Hlc Hch]. destruct (Qc_eq_dec hi lo) as [->|Hne].
  - left. split; [reflexivity|].
    assert (c = lo) by (now apply Qcle_antisym). subst c.
    rewrite rsv_cell_zero_range.
    assert (E : sign (lo - lo) = Eq)
      by (apply sign_eq, Qcminus_eq_0; reflexivity).
    now rewrite E.
  - right. split; [exact Hne|]. rewrite rsv_cell_fin by exact Hne.
    eexists. split; [reflexivity|].
    apply Qc_ratio_bounds.
    + unfold Qcle in *. rewrite this_minus, this_Q2Qc. lra.
    + unfold Qcle in *. rewrite !this_minus. lra.
    + assert (Hlt : (lo < hi)%Qc).
      { destruct (Qcle_lt_or_eq lo hi) as [H|H];
          [eapply Qcle_trans; eassumption | exact H | congruence]. }
      unfold Qclt in *. rewrite this_minus, this_Q2Qc. lra.
Qed.

Lemma rsv_col_bounded (df : list Bar) (i : nat) :
  ordered_bars df -> i < length df ->
  nth i (rsv_col df) NaN = NaN \/ in_0_100 (nth i (rsv_col df) NaN).
Proof.
  intros Hord Hi. destruct (Nat.lt_ge_cases i 8) as [H8|H8].
  - left. now apply rsv_col_warmup.
  - destruct (window_bracket Hord (conj H8 Hi)) as (lo & hi & Hlo & Hhi & Hb).
    rewrite rsv_col_nth, Hlo, Hhi by exact Hi.
    destruct (rsv_cell_bracket Hb) as [[_ H]|[_ H]]; [now left | now right].
Qed.

Lemma kd_bounded (df : list Bar) (i : nat) :
  ordered_bars df -> i < length df ->
  in_0_100 (nth i (K (frame_of df)) NaN)
  /\ in_0_100 (nth i (D (frame_of df)) NaN).
Proof.
  intros Hord Hi. cbn [K D frame_of]. rewrite !nth_map_seq by exact Hi.
  apply KD_at_in_0_100. intros j Hj. apply rsv_col_bounded; [exact Hord | lia].
Qed.

(** C9: when every bar has low <= close <= high, K[i] and D[i] are finite
    and lie in [0, 100] at every index. *)
Theorem kd_within_0_100 (df : list Bar) :
  df <> [] ->
  (forall b, In b df -> (Low b <= Close b <= High b)%Qc) ->
  exists r,
    get_stock_data df = Some r
    /\ forall i, i < length df ->
         exists kv dv,
           nth i (K r) NaN = Fin kv /\ nth i (D r) NaN = Fin dv
           /\ (0 <= kv <= qc 100 1)%Qc /\ (0 <= dv <= qc 100 1)%Qc.
Proof.
  intros Hne Hord. exists (frame_of df).
  split; [now apply get_stock_data_eq|]. intros i Hi.
  destruct (kd_bounded Hord Hi) as [(kv & HK & Hkb) (dv & HD & Hdb)].
  exists kv, dv. auto.
Qed.

Lemma ten_bars_ordered : ordered_bars ten_bars.
Proof.
  intros b Hb. simpl in Hb.
  repeat (destruct Hb as [<-|Hb]; [split; vm_compute; discriminate|]).
  destruct Hb.
Qed.

Lemma kd_within_0_100_witness :
  ten_bars <> []
  /\ ordered_bars ten_bars
  /\ exists r,
       get_stock_data ten_bars = Some r
       /\ forall i, i < length ten_bars ->
            exists kv dv,
              nth i (K r) NaN = Fin kv /\ nth i (D r) NaN = Fin dv
              /\ (0 <= kv <= qc 100 1)%Qc /\ (0 <= dv <= qc 100 1)%Qc.
Proof.
  assert (Hne : ten_bars <> []) by discriminate.
  split; [exact Hne|]. split; [exact ten_bars_ordered|].
  exact (kd_within_0_100 Hne ten_bars_ordered).
Defined.

(** ** Zero-range windows *)

Example flat_close_11_row_8 :
  option_map (fun r => (nth 8 (RSV r) NaN, nth 8 (K r) NaN, nth 8 (D r) NaN))
    (get_stock_data (flat_bars 11))
  = Some (PInf, PInf, PInf).
Proof. reflexivity. Qed.

(** C4, counterexample: nine bars with High = Low = 10 and Close = 11.  The
    window of row 8 has range zero, RSV[8] is 1 / 0 * 100 = +inf, which
    [pd.isna] does not catch, and K[8] is +inf. *)
Lemma zero_range_claim_fails : ~ zero_range_claim (flat_bars 11).
Proof.
  intros H. destruct H as (r & Hr & Hall).
  - exists 8. split; [simpl; lia|]. exists (qc 10 1). split; reflexivity.
  - rewrite get_stock_data_eq in Hr by discriminate.
    injection Hr as <-. destruct (Hall 8) as (_ & HK & _); [simpl; lia|].
    vm_compute in HK. discriminate.
Qed.

Lemma zero_range_rsv_nan (df : list Bar) (i : nat) :
  ordered_bars df -> i < length df -> zero_range_at df i ->
  nth i (rsv_col df) NaN = NaN.
Proof.
  intros Hord Hi (v & Hlo & Hhi).
  destruct (Nat.lt_ge_cases i 8) as [H8|H8]; [now apply rsv_col_warmup|].
  destruct (window_bracket Hord (conj H8 Hi)) as (lo & hi & Hlo' & Hhi' & Hb).
  rewrite rsv_col_nth, Hlo', Hhi' by exact Hi.
  destruct (rsv_cell_bracket Hb) as [[_ H]|[Hne _]]; [exact H|].
  congruence.
Qed.

(** C4, amended: when every bar has low <= close <= high, a series with a
    zero-range window gets a frame, RSV is NaN at every zero-range row and
    counts as 50 in the recursion, and K and D are finite at every row. *)
Theorem zero_range_neutral_on_ordered_bars (df : list Bar) :
  (forall b, In b df -> (Low b <= Close b <= High b)%Qc) ->
  (exists i, i < length df /\ zero_range_at df i) ->
  exists r,
    get_stock_data df = Some r
    /\ forall i, i < length df ->
         (zero_range_at df i ->
          nth i (RSV r) NaN = NaN
          /\ rsv_or_50 (nth i (RSV r) NaN) = Fin (qc 50 1))
         /\ isfinite (nth i (K r) NaN) = true
         /\ isfinite (nth i (D r) NaN) = true.
Proof.
  intros Hord (i0 & Hi0 & _). exists (frame_of df).
  split; [apply get_stock_data_eq; intros ->; simpl in Hi0; lia|].
  intros i Hi. split.
  - intros Hz. cbn [RSV frame_of].
    rewrite (zero_range_rsv_nan Hord Hi Hz). split; reflexivity.
  - destruct (kd_bounded Hord Hi) as [(kv & -> & _) (dv & -> & _)].
    split; reflexivity.
Qed.

Lemma flat_bars_10_ordered : ordered_bars (flat_bars 10).
Proof.
  intros b Hb. simpl in Hb.
  repeat (destruct Hb as [<-|Hb]; [split; vm_compute; discriminate|]).
  destruct Hb.
Qed.

Lemma flat_bars_10_zero_range :
  exists i, i < length (flat_bars 10) /\ zero_range_at (flat_bars 10) i.
Proof.
  exists 8. split; [simpl; lia|]. exists (qc 10 1). split; reflexivity.
Defined.

Lemma zero_range_neutral_on_ordered_bars_witness :
  ordered_bars (flat_bars 10)
  /\ (exists i, i < length (flat_bars 10) /\ zero_range_at (flat_bars 10) i)
  /\ exists r,
       get_stock_data (flat_bars 10) = Some r
       /\ forall i, i < length (flat_bars 10) ->
            (zero_range_at (flat_bars 10) i ->
             nth i (RSV r) NaN = NaN
             /\ rsv_or_50 (nth i (RSV r) NaN) = Fin (qc 50 1))
            /\ isfinite (nth i (K r) NaN) = true
            /\ isfinite (nth i (D r) NaN) = true.
Proof.
  split; [exact flat_bars_10_ordered|].
  split; [exact flat_bars_10_zero_range|].
  exact (zero_range_neutral_on_ordered_bars
           flat_bars_10_ordered flat_bars_10_zero_range).
Defined.

(** ** What the function rejects *)

Example frame_of_bar_close_0 :
  option_map (fun r => (map this (MACD r), K r, D r))
    (get_stock_data [bar_close_0])
  = Some ([0%Q], [Fin (qc 50 1)], [Fin (qc 50 1)]).
Proof. reflexivity. Qed.

(** C5, counterexample: the one-bar series whose close is 0 is invalid
    input, and a frame is returned for it. *)
Lemma rejects_invalid_claim_fails : ~ rejects_invalid_claim [bar_close_0].
Proof.
  intros [_ H].
  assert (Hnone : get_stock_data [bar_close_0] = None).
  { apply H. right. exists bar_close_0. split; [now left|].
    intros (_ & _ & _ & Hc). vm_compute in Hc. discriminate. }
  vm_compute in Hnone. discriminate.
Qed.

(** C5, amended: no frame is returned exactly when the series is empty;
    the values of the bars are not checked, and a non-empty series gets
    a frame over the same bars with one value per bar in every column. *)
Theorem none_iff_empty (df : list Bar) :
  match get_stock_data df with
  | None => df = []
  | Some r =>
      df <> [] /\ bars r = df
      /\ length (MACD r) = length df /\ length (Signal r) = length df
      /\ length (Hist r) = length df /\ length (RSV r) = length df
      /\ length (K r) = length df /\ length (D r) = length df
  end.
Proof.
  destruct df as [|b t]; [reflexivity|].
  rewrite get_stock_data_eq by discriminate.
  cbn [bars MACD Signal Hist RSV K D frame_of].
  rewrite macd_col_length, signal_col_length, hist_col_length, rsv_col_length.
  rewrite !length_map, !length_seq. repeat split. discriminate.
Qed.

(** C6, counterexample: two bars with the same timestamp get a frame. *)
Lemma rejects_unordered_claim_fails : ~ rejects_unordered_claim same_day_bars.
Proof.
  intros H. specialize (H eq_refl). vm_compute in H. discriminate.
Qed.

Lemma prices_columns (df df' : list Bar) :
  map prices df = map prices df' ->
  length df = length df' /\ map Close df = map Close df'
  /\ map Low df = map Low df' /\ map High df = map High df'.
Proof.
  intros H. split; [rewrite <- (length_map prices df), H; apply length_map|].
  assert (Hc : forall f : Qc * Qc * Qc * Qc -> Qc,
             map (fun b => f (prices b)) df = map (fun b => f (prices b)) df')
    by (intros f; rewrite <- !(map_map prices f); now rewrite H).
  split; [exact (Hc snd)|].
  split; [exact (Hc (fun p => snd (fst p))) | exact (Hc (fun p => snd (fst (fst p))))].
Qed.

Lemma frame_of_prices (df df' : list Bar) :
  map prices df = map prices df' ->
  MACD (frame_of df) = MACD (frame_of df')
  /\ Signal (frame_of df) = Signal (frame_of df')
  /\ Hist (frame_of df) = Hist (frame_of df')
  /\ RSV (frame_of df) = RSV (frame_of df')
  /\ K (frame_of df) = K (frame_of df')
  /\ D (frame_of df) = D (frame_of df').
Proof.
  intros H. destruct (prices_columns _ _ H) as (Hlen & Hc & Hl & Hh).
  cbn [MACD Signal Hist RSV K D frame_of].
  unfold hist_col, signal_col, macd_col, rsv_col, low_min_col, high_max_col,
    close_col.
  rewrite Hlen, Hc, Hl, Hh. repeat split.
Qed.

(** C6, amended: timestamps are not read.  Every non-empty series gets a
    frame, whatever the order or the repetitions of its timestamps, and
    its indicator columns are those of any series with the same prices
    row by row. *)
Theorem timestamps_not_read (df df' : list Bar) :
  df <> [] ->
  map prices df = map prices df' ->
  exists r r',
    get_stock_data df = Some r /\ get_stock_data df' = Some r'
    /\ MACD r = MACD r' /\ Signal r = Signal r' /\ Hist r = Hist r'
    /\ RSV r = RSV r' /\ K r = K r' /\ D r = D r'.
Proof.
  intros Hne Hp. exists (frame_of df), (frame_of df').
  split; [now apply get_stock_data_eq|].
  split; [|now apply frame_of_prices].
  apply get_stock_data_eq. intros ->. destruct df; [congruence | discriminate].
Qed.

Lemma timestamps_not_read_witness :
  same_day_bars <> []
  /\ map prices same_day_bars = map prices next_day_bars
  /\ strictly_ascending (map timestamp same_day_bars) = false
  /\ exists r r',
       get_stock_data same_day_bars = Some r
       /\ get_stock_data next_day_bars = Some r'
       /\ MACD r = MACD r' /\ Signal r = Signal r' /\ Hist r = Hist r'
       /\ RSV r = RSV r' /\ K r = K r' /\ D r = D r'.
Proof.
  assert (Hne : same_day_bars <> []) by discriminate.
  assert (Hp : map prices same_day_bars = map prices next_day_bars)
    by reflexivity.
  split; [exact Hne|]. split; [exact Hp|]. split; [reflexivity|].
  exact (@timestamps_not_read same_day_bars next_day_bars Hne Hp).
Defined.

(** ** Prefixes: no value depends on later bars *)

Lemma firstn_seq (n start len : nat) :
  firstn n (seq start len) = seq start (min n len).
Proof.
  revert start len. induction n as [|n IH]; intros start [|len]; simpl;
    try reflexivity.
  now rewrite IH.
Qed.

Lemma ewm_from_firstn (a : Qc) (n : nat) (xs : list Qc) :
  forall prev, firstn n (ewm_from a prev xs) = ewm_from a prev (firstn n xs).
Proof.
  revert n. induction xs as [|x t IH]; intros [|n] prev; simpl;
    try reflexivity.
  now rewrite IH.
Qed.

Lemma ewm_mean_firstn (s : positive) (n : nat) (xs : list Qc) :
  firstn n (ewm_mean s xs) = ewm_mean s (firstn n xs).
Proof.
  destruct xs as [|x t], n as [|n]; simpl; try reflexivity.
  now rewrite ewm_from_firstn.
Qed.

Lemma series_sub_firstn (n : nat) (xs ys : list Qc) :
  firstn n (series_sub xs ys) = series_sub (firstn n xs) (firstn n ys).
Proof. unfold series_sub. now rewrite firstn_map, combine_firstn. Qed.

Lemma window_slice_firstn (w i n : nat) (xs : list Qc) :
  w <= S i -> i < n ->
  window_slice w i (firstn n xs) = window_slice w i xs.
Proof.
  intros Hw Hi. unfold window_slice.
  rewrite skipn_firstn_comm, firstn_firstn.
  replace (min w (n - (S i - w))) with w by lia. reflexivity.
Qed.

Lemma rolling_firstn (agg : Qc -> Qc -> Qc) (w n : nat) (xs : list Qc) :
  firstn n (rolling agg w xs) = rolling agg w (firstn n xs).
Proof.
  unfold rolling. rewrite firstn_map, firstn_seq, length_firstn.
  apply map_ext_in. intros i Hi. apply in_seq in Hi.
  destruct (S i <? w) eqn:E; [reflexivity|]. apply Nat.ltb_ge in E.
  rewrite window_slice_firstn by lia. reflexivity.
Qed.

Lemma rsv_column_firstn (n : nat) (cs : list Qc) :
  forall ls hs,
    firstn n (rsv_column cs ls hs)
    = rsv_column (firstn n cs) (firstn n ls) (firstn n hs).
Proof.
  revert n. induction cs as [|c cs IH]; intros [|n] [|l ls] [|h hs]; simpl;
    try reflexivity.
  now rewrite IH.
Qed.

Lemma macd_col_firstn (n : nat) (df : list Bar) :
  firstn n (macd_col df) = macd_col (firstn n df).
Proof.
  unfold macd_col, close_col.
  now rewrite series_sub_firstn, !ewm_mean_firstn, firstn_map.
Qed.

Lemma signal_col_firstn (n : nat) (df : list Bar) :
  firstn n (signal_col df) = signal_col (firstn n df).
Proof. unfold signal_col. now rewrite ewm_mean_firstn, macd_col_firstn. Qed.

Lemma hist_col_firstn (n : nat) (df : list Bar) :
  firstn n (hist_col df) = hist_col (firstn n df).
Proof.
  unfold hist_col.
  now rewrite series_sub_firstn, macd_col_firstn, signal_col_firstn.
Qed.

Lemma rsv_col_firstn (n : nat) (df : list Bar) :
  firstn n (rsv_col df) = rsv_col (firstn n df).
Proof.
  unfold rsv_col, low_min_col, high_max_col, close_col, rolling_min, rolling_max.
  now rewrite rsv_column_firstn, !rolling_firstn, !firstn_map.
Qed.

Lemma KD_at_ext (r r' : nat -> fval) (i : nat) :
  (forall j, j <= i -> r j = r' j) ->
  K_at r i = K_at r' i /\ D_at r i = D_at r' i.
Proof.
  induction i as [|i IH]; intros H; [split; reflexivity|].
  destruct IH as [HK HD]; [intros; apply H; lia|].
  assert (HK' : K_at r (S i) = K_at r' (S i))
    by (cbn [K_at]; now rewrite HK, H by lia).
  split; [exact HK'|]. cbn [D_at]. fold (K_at r (S i)) (K_at r' (S i)).
  now rewrite HD, HK'.
Qed.

Lemma kd_cols_firstn (n : nat) (df : list Bar) :
  firstn n (K (frame_of df)) = K (frame_of (firstn n df))
  /\ firstn n (D (frame_of df)) = D (frame_of (firstn n df)).
Proof.
  cbn [K D frame_of]. rewrite !firstn_map, firstn_seq, length_firstn.
  assert (H : forall i, In i (seq 0 (min n (length df))) ->
            K_at (fcol (rsv_col df)) i = K_at (fcol (rsv_col (firstn n df))) i
            /\ D_at (fcol (rsv_col df)) i
               = D_at (fcol (rsv_col (firstn n df))) i).
  { intros i Hi. apply in_seq in Hi. apply KD_at_ext. intros j Hj.
    unfold fcol. rewrite <- rsv_col_firstn, nth_firstn.
    assert (E : (j <? n) = true) by (apply Nat.ltb_lt; lia).
    now rewrite E. }
  split; apply map_ext_in; intros i Hi; now apply H.
Qed.

(** X1: the columns of a non-empty series are a prefix of the columns of
    the series with more bars appended: appending bars changes no
    indicator value of an earlier row. *)
Theorem appended_bars_change_no_row (b : Bar) (s t : list Bar) :
  exists r r',
    get_stock_data (b :: s) = Some r
    /\ get_stock_data ((b :: s) ++ t) = Some r'
    /\ firstn (length (b :: s)) (MACD r') = MACD r
    /\ firstn (length (b :: s)) (Signal r') = Signal r
    /\ firstn (length (b :: s)) (Hist r') = Hist r
    /\ firstn (length (b :: s)) (RSV r') = RSV r
    /\ firstn (length (b :: s)) (K r') = K r
    /\ firstn (length (b :: s)) (D r') = D r.
Proof.
  exists (frame_of (b :: s)), (frame_of ((b :: s) ++ t)).
  split; [apply get_stock_data_eq; discriminate|].
  split; [apply get_stock_data_eq; discriminate|].
  destruct (kd_cols_firstn (length (b :: s)) ((b :: s) ++ t)) as [HK HD].
  rewrite HK, HD. cbn [MACD Signal Hist RSV frame_of].
  rewrite macd_col_firstn, signal_col_firstn, hist_col_firstn, rsv_col_firstn.
  rewrite firstn_app, Nat.sub_diag, firstn_all. cbn [firstn].
  rewrite app_nil_r. repeat split.
Qed.

(** ** MACD under a change of price unit and origin *)

Section EwmMap.

Variable f : Qc -> Qc.
Variable a : Qc.
Hypothesis f_mix :
  forall p x, ((1 - a) * f p + a * f x)%Qc = f ((1 - a) * p + a * x)%Qc.

Lemma ewm_from_map (xs : list Qc) :
  forall prev,
    ewm_from a (f prev) (map f xs) = map f (ewm_from a prev xs).
Proof.
  induction xs as [|x t IH]; intros prev; [reflexivity|].
  cbn [map ewm_from]. rewrite f_mix. cbv zeta. now rewrite IH.
Qed.

End EwmMap.

Lemma ewm_mean_map (f : Qc -> Qc) (s : positive) (xs : list Qc) :
  (forall p x,
     ((1 - alpha_of_span s) * f p + alpha_of_span s * f x)%Qc
     = f ((1 - alpha_of_span s) * p + alpha_of_span s * x)%Qc) ->
  ewm_mean s (map f xs) = map f (ewm_mean s xs).
Proof.
  intros Hf. destruct xs as [|x t]; [reflexivity|].
  cbn [map ewm_mean]. now rewrite ewm_from_map.
Qed.

Lemma series_sub_map (f g : Qc -> Qc) (xs : list Qc) :
  (forall x y, (f x - f y)%Qc = g (x - y)%Qc) ->
  forall ys, series_sub (map f xs) (map f ys) = map g (series_sub xs ys).
Proof.
  intros Hfg. unfold series_sub.
  induction xs as [|x t IH]; intros [|y ys]; try reflexivity.
  cbn [map combine fst snd]. now rewrite Hfg, IH.
Qed.

Lemma affine_mix (scale shift a p x : Qc) :
  ((1 - a) * affine scale shift p + a * affine scale shift x)%Qc
  = affine scale shift ((1 - a) * p + a * x)%Qc.
Proof. unfold affine. ring. Qed.

Lemma scale_mix (scale a p x : Qc) :
  ((1 - a) * (scale * p) + a * (scale * x))%Qc
  = (scale * ((1 - a) * p + a * x))%Qc.
Proof. ring. Qed.

Lemma close_col_affine (scale shift : Qc) (df : list Bar) :
  close_col (map (affine_bar scale shift) df)
  = map (affine scale shift) (close_col df).
Proof. unfold close_col. rewrite !map_map. reflexivity. Qed.

Lemma macd_col_affine (scale shift : Qc) (df : list Bar) :
  macd_col (map (affine_bar scale shift) df)
  = map (Qcmult scale) (macd_col df).
Proof.
  unfold macd_col. rewrite close_col_affine.
  rewrite !ewm_mean_map by (intros; apply affine_mix).
  apply series_sub_map. intros x y. unfold affine. ring.
Qed.

Lemma signal_col_affine (scale shift : Qc) (df : list Bar) :
  signal_col (map (affine_bar scale shift) df)
  = map (Qcmult scale) (signal_col df).
Proof.
  unfold signal_col. rewrite macd_col_affine.
  apply ewm_mean_map. intros; apply scale_mix.
Qed.

Lemma hist_col_affine (scale shift : Qc) (df : list Bar) :
  hist_col (map (affine_bar scale shift) df)
  = map (Qcmult scale) (hist_col df).
Proof.
  unfold hist_col. rewrite macd_col_affine, signal_col_affine.
  apply series_sub_map. intros x y. ring.
Qed.

(** X2: replacing every price [x] by [scale * x + shift] multiplies MACD,
    Signal and Hist by [scale] at every row; the shift cancels. *)
Theorem macd_scales_with_prices (scale shift : Qc) (b : Bar) (t : list Bar) :
  exists r r',
    get_stock_data (b :: t) = Some r
    /\ get_stock_data (map (affine_bar scale shift) (b :: t)) = Some r'
    /\ MACD r' = map (Qcmult scale) (MACD r)
    /\ Signal r' = map (Qcmult scale) (Signal r)
    /\ Hist r' = map (Qcmult scale) (Hist r).
Proof.
  exists (frame_of (b :: t)), (frame_of (map (affine_bar scale shift) (b :: t))).
  split; [apply get_stock_data_eq; discriminate|].
  split; [apply get_stock_data_eq; discriminate|].
  cbn [MACD Signal Hist frame_of].
  now rewrite macd_col_affine, signal_col_affine, hist_col_affine.
Qed.

(** ** MACD and the range of the closes *)

Lemma mix_within (a lo hi p x : Qc) :
  (0 <= a <= 1)%Qc -> within lo hi p -> within lo hi x ->
  within lo hi ((1 - a) * p + a * x)%Qc.
Proof.
  unfold within, Qcle. intros [Ha0 Ha1] [Hp0 Hp1] [Hx0 Hx1].
  rewrite this_plus, !this_mult, this_minus.
  rewrite this_Q2Qc in *. split; nra.
Qed.

Lemma ewm_from_within (a lo hi : Qc) (xs : list Qc) :
  (0 <= a <= 1)%Qc -> Forall (within lo hi) xs ->
  forall prev, within lo hi prev ->
    Forall (within lo hi) (ewm_from a prev xs).
Proof.
  intros Ha Hxs. induction Hxs as [|x t Hx Ht IH]; intros prev Hp;
    cbn [ewm_from]; constructor.
  - now apply mix_within.
  - apply IH. now apply mix_within.
Qed.

Lemma alpha_of_span_unit (s : positive) : (0 <= alpha_of_span s <= 1)%Qc.
Proof.
  unfold alpha_of_span, Qcle. rewrite this_qc, !this_Q2Qc.
  unfold Qle. simpl. lia.
Qed.

Lemma ewm_mean_within (s : positive) (lo hi : Qc) (xs : list Qc) :
  Forall (within lo hi) xs -> Forall (within lo hi) (ewm_mean s xs).
Proof.
  intros H. destruct H as [|x t Hx Ht]; cbn [ewm_mean]; constructor;
    [exact Hx|].
  apply ewm_from_within; auto using alpha_of_span_unit.
Qed.

Lemma series_sub_within (lo hi : Qc) (xs : list Qc) :
  Forall (within lo hi) xs ->
  forall ys, Forall (within lo hi) ys ->
    Forall (within (- (hi - lo)) (hi - lo))%Qc (series_sub xs ys).
Proof.
  unfold series_sub. intros Hxs.
  induction Hxs as [|x t Hx Ht IH]; intros ys Hys; [constructor|].
  destruct Hys as [|y ys Hy Hys]; cbn [combine map fst snd]; constructor;
    [|now apply IH].
  unfold within, Qcle in *. destruct Hx, Hy.
  rewrite this_opp, !this_minus. split; lra.
Qed.

Lemma macd_cols_within (lo hi : Qc) (df : list Bar) :
  (forall b, In b df -> within lo hi (Close b)) ->
  Forall (within (- (hi - lo)) (hi - lo))%Qc (macd_col df)
  /\ Forall (within (- (hi - lo)) (hi - lo))%Qc (signal_col df).
Proof.
  intros H.
  assert (Hc : Forall (within lo hi) (close_col df)).
  { unfold close_col. apply Forall_forall. intros c Hin.
    apply in_map_iff in Hin as (b & <- & Hb). now apply H. }
  assert (Hm : Forall (within (- (hi - lo)) (hi - lo))%Qc (macd_col df))
    by (apply series_sub_within; now apply ewm_mean_within).
  split; [exact Hm|]. now apply ewm_mean_within.
Qed.

(** X3: when every close lies in [lo, hi], MACD and Signal lie in
    [-(hi - lo), hi - lo] at every row, and Hist in twice that range. *)
Theorem macd_bounded_by_close_range (lo hi : Qc) (df : list Bar) :
  df <> [] ->
  (forall b, In b df -> (lo <= Close b <= hi)%Qc) ->
  exists r,
    get_stock_data df = Some r
    /\ forall i, i < length df ->
         (- (hi - lo) <= nth i (MACD r) 0 <= hi - lo)%Qc
         /\ (- (hi - lo) <= nth i (Signal r) 0 <= hi - lo)%Qc
         /\ (- (qc 2 1 * (hi - lo)) <= nth i (Hist r) 0
             <= qc 2 1 * (hi - lo))%Qc.
Proof.
  intros Hne H. exists (frame_of df).
  split; [now apply get_stock_data_eq|]. intros i Hi.
  destruct (@macd_cols_within lo hi df H) as [Hm Hs].
  cbn [MACD Signal Hist frame_of].
  assert (Him : i < length (macd_col df)) by (now rewrite macd_col_length).
  assert (His : i < length (signal_col df)) by (now rewrite signal_col_length).
  pose proof (proj1 (Forall_forall _ _) Hm _ (nth_In _ 0%Qc Him)) as Bm.
  pose proof (proj1 (Forall_forall _ _) Hs _ (nth_In _ 0%Qc His)) as Bs.
  split; [exact Bm|]. split; [exact Bs|].
  unfold hist_col.
  rewrite series_sub_nth by (rewrite ?signal_col_length, macd_col_length; lia).
  unfold within, Qcle in *. destruct Bm as [Bm0 Bm1], Bs as [Bs0 Bs1].
  rewrite this_opp, this_minus in Bm0, Bs0. rewrite this_minus in Bm1, Bs1.
  rewrite this_opp, this_mult, this_qc, !this_minus. split; lra.
Qed.

Lemma ten_bars_closes_98_102 :
  forall b, In b ten_bars -> (qc 98 1 <= Close b <= qc 102 1)%Qc.
Proof.
  intros b Hb. simpl in Hb.
  repeat (destruct Hb as [<-|Hb]; [split; vm_compute; discriminate|]).
  destruct Hb.
Qed.

Lemma macd_bounded_by_close_range_witness :
  ten_bars <> []
  /\ exists r,
       get_stock_data ten_bars = Some r
       /\ forall i, i < length ten_bars ->
            (- (qc 102 1 - qc 98 1) <= nth i (MACD r) 0
             <= qc 102 1 - qc 98 1)%Qc
            /\ (- (qc 102 1 - qc 98 1) <= nth i (Signal r) 0
                <= qc 102 1 - qc 98 1)%Qc
            /\ (- (qc 2 1 * (qc 102 1 - qc 98 1)) <= nth i (Hist r) 0
                <= qc 2 1 * (qc 102 1 - qc 98 1))%Qc.
Proof.
  assert (Hne : ten_bars <> []) by discriminate.
  split; [exact Hne|].
  exact (@macd_bounded_by_close_range (qc 98 1) (qc 102 1) ten_bars Hne
           ten_bars_closes_98_102).
Defined.

(** ** KD under a change of price unit and origin *)

Section Monotone.

Variable f : Qc -> Qc.
Hypothesis f_incr : forall x y, (x < y)%Qc -> (f x < f y)%Qc.

Lemma compare_incr (x y : Qc) : (f x ?= f y)%Qc = (x ?= y)%Qc.
Proof.
  destruct (x ?= y)%Qc eqn:E.
  - apply Qceq_alt in E. subst. now apply Qceq_alt.
  - apply Qclt_alt in E. now apply Qclt_alt, f_incr.
  - apply Qcgt_alt in E. now apply Qcgt_alt, f_incr.
Qed.

Lemma Qcmin_incr (x y : Qc) : Qcmin (f x) (f y) = f (Qcmin x y).
Proof. unfold Qcmin. rewrite compare_incr. now destruct (x ?= y)%Qc. Qed.

Lemma Qcmax_incr (x y : Qc) : Qcmax (f x) (f y) = f (Qcmax x y).
Proof. unfold Qcmax. rewrite compare_incr. now destruct (x ?= y)%Qc. Qed.

End Monotone.

Lemma fold_left_map_commute (agg f : Qc -> Qc) (g : Qc -> Qc -> Qc)
  (t : list Qc) :
  (forall x y, g (f x) (f y) = f (g x y)) ->
  forall x, fold_left g (map f t) (f x) = f (fold_left g t x).
Proof.
  intros H. induction t as [|y t IH]; intros x; [reflexivity|].
  cbn [map fold_left]. now rewrite H, IH.
Qed.

Lemma window_slice_map (f : Qc -> Qc) (w i : nat) (xs : list Qc) :
  window_slice w i (map f xs) = map f (window_slice w i xs).
Proof. unfold window_slice. now rewrite skipn_map, firstn_map. Qed.

Lemma rolling_map (g : Qc -> Qc -> Qc) (f : Qc -> Qc) (w : nat)
  (xs : list Qc) :
  (forall x y, g (f x) (f y) = f (g x y)) ->
  rolling g w (map f xs) = map (flift f) (rolling g w xs).
Proof.
  intros H. unfold rolling. rewrite length_map, map_map.
  apply map_ext. intros i. destruct (S i <? w); [reflexivity|].
  rewrite window_slice_map.
  destruct (window_slice w i xs) as [|x t]; [reflexivity|].
  cbn [map flift]. now rewrite (fold_left_map_commute f).
Qed.

Lemma rolling_no_inf (g : Qc -> Qc -> Qc) (w : nat) (xs : list Qc) :
  Forall (fun x => isinf x = false) (rolling g w xs).
Proof.
  unfold rolling. apply Forall_forall. intros x Hx.
  apply in_map_iff in Hx as (i & <- & _).
  destruct (S i <? w); [reflexivity|].
  now destruct (window_slice w i xs).
Qed.

Lemma affine_incr (scale shift : Qc) :
  (0 < scale)%Qc ->
  forall x y, (x < y)%Qc -> (affine scale shift x < affine scale shift y)%Qc.
Proof.
  unfold affine, Qclt. intros Hs x y Hxy.
  rewrite !this_plus, !this_mult. rewrite this_Q2Qc in Hs. nra.
Qed.

Lemma sign_scale (scale q : Qc) :
  (0 < scale)%Qc -> sign (scale * q) = sign q.
Proof.
  intros Hs. unfold sign.
  assert (Hincr : forall x y, (x < y)%Qc -> (scale * x < scale * y)%Qc).
  { intros x y Hxy. unfold Qclt in *. rewrite !this_mult.
    rewrite this_Q2Qc in Hs. nra. }
  rewrite <- (@compare_incr (Qcmult scale) Hincr q 0%Qc).
  now rewrite Qcmult_0_r.
Qed.

Lemma rsv_cell_affine (scale shift c : Qc) (lo hi : fval) :
  (0 < scale)%Qc -> isinf lo = false -> isinf hi = false ->
  rsv_cell (affine scale shift c) (flift (affine scale shift) lo)
    (flift (affine scale shift) hi)
  = rsv_cell c lo hi.
Proof.
  intros Hs Hlo Hhi.
  destruct lo as [l| | |], hi as [h| | |]; try discriminate; try reflexivity.
  unfold rsv_cell, fsub, fneg, fadd, flift, fdiv.
  replace (affine scale shift c + - affine scale shift l)%Qc
    with (scale * (c + - l))%Qc by (unfold affine; ring).
  replace (affine scale shift h + - affine scale shift l)%Qc
    with (scale * (h + - l))%Qc by (unfold affine; ring).
  rewrite !sign_scale by exact Hs.
  assert (Hq : sign (h + - l) <> Eq ->
               (scale * (c + - l) / (scale * (h + - l)))%Qc
               = ((c + - l) / (h + - l))%Qc).
  { intros Hne. assert (h + - l <> 0)%Qc by (intros E; apply Hne, sign_eq, E).
    assert (scale <> 0)%Qc
      by (intros ->; revert Hs; unfold Qclt; rewrite this_Q2Qc; lra).
    field. split; assumption. }
  destruct (sign (h + - l)) eqn:E; try reflexivity;
    rewrite Hq by discriminate; reflexivity.
Qed.

Lemma rsv_column_affine (scale shift : Qc) (cs : list Qc) :
  (0 < scale)%Qc ->
  forall los his,
    Forall (fun x => isinf x = false) los ->
    Forall (fun x => isinf x = false) his ->
    rsv_column (map (affine scale shift) cs)
      (map (flift (affine scale shift)) los)
      (map (flift (affine scale shift)) his)
    = rsv_column cs los his.
Proof.
  intros Hs. induction cs as [|c cs IH]; intros los his Hlo Hhi;
    [reflexivity|].
  destruct Hlo as [|l los Hl Hlo]; [reflexivity|].
  destruct Hhi as [|h his Hh Hhi]; [reflexivity|].
  cbn [map rsv_column]. now rewrite rsv_cell_affine, IH.
Qed.

Lemma rsv_col_affine (scale shift : Qc) (df : list Bar) :
  (0 < scale)%Qc ->
  rsv_col (map (affine_bar scale shift) df) = rsv_col df.
Proof.
  intros Hs. unfold rsv_col, low_min_col, high_max_col, rolling_min, rolling_max.
  rewrite close_col_affine.
  replace (map Low (map (affine_bar scale shift) df))
    with (map (affine scale shift) (map Low df))
    by (rewrite !map_map; reflexivity).
  replace (map High (map (affine_bar scale shift) df))
    with (map (affine scale shift) (map High df))
    by (rewrite !map_map; reflexivity).
  rewrite (rolling_map Qcmin) by (apply Qcmin_incr, affine_incr, Hs).
  rewrite (rolling_map Qcmax) by (apply Qcmax_incr, affine_incr, Hs).
  apply rsv_column_affine; auto using rolling_no_inf.
Qed.

(** X4: in exact rational arithmetic, replacing every price [x] by
    [scale * x + shift] with a positive [scale] (another currency unit,
    another origin) changes no cell of RSV, K and D.  The rounding of
    doubles is left out here: in binary64 the quotient of the shifted
    prices can round differently. *)
Theorem kd_invariant_under_price_unit (scale shift : Qc) (df : list Bar) :
  (0 < scale)%Qc ->
  df <> [] ->
  exists r r',
    get_stock_data df = Some r
    /\ get_stock_data (map (affine_bar scale shift) df) = Some r'
    /\ RSV r' = RSV r /\ K r' = K r /\ D r' = D r.
Proof.
  intros Hs Hne. exists (frame_of df), (frame_of (map (affine_bar scale shift) df)).
  split; [now apply get_stock_data_eq|].
  split; [apply get_stock_data_eq; destruct df; [congruence | discriminate]|].
  cbn [RSV K D frame_of].
  now rewrite rsv_col_affine, length_map by exact Hs.
Qed.

Lemma kd_invariant_under_price_unit_witness :
  (0 < qc 3 1)%Qc
  /\ ten_bars <> []
  /\ exists r r',
       get_stock_data ten_bars = Some r
       /\ get_stock_data (map (affine_bar (qc 3 1) (qc 7 1)) ten_bars) = Some r'
       /\ RSV r' = RSV r /\ K r' = K r /\ D r' = D r.
Proof.
  assert (Hs : (0 < qc 3 1)%Qc) by reflexivity.
  assert (Hne : ten_bars <> []) by discriminate.
  split; [exact Hs|]. split; [exact Hne|].
  exact (@kd_invariant_under_price_unit (qc 3 1) (qc 7 1) ten_bars Hs Hne).
Defined.

(** ** When K and D stop being finite *)

Lemma smooth_finite (p c : fval) :
  isfinite (smooth p c) = isfinite p && isfinite c.
Proof. destruct p, c; reflexivity. Qed.

Lemma rsv_or_50_finite (x : fval) :
  isfinite (rsv_or_50 x) = negb (isinf x).
Proof. destruct x; reflexivity. Qed.

Lemma K_at_finite_iff (rsv : nat -> fval) (i : nat) :
  isfinite (K_at rsv i) = true
  <-> forall j, 1 <= j <= i -> isinf (rsv j) = false.
Proof.
  induction i as [|i IH].
  - split; [intros _ j Hj; lia | reflexivity].
  - cbn [K_at]. rewrite smooth_finite, rsv_or_50_finite, andb_true_iff, IH.
    rewrite negb_true_iff. split.
    + intros [Hall Hlast] j Hj.
      destruct (Nat.eq_dec j (S i)) as [->|Hne]; [exact Hlast|].
      apply Hall. lia.
    + intros H. split; [intros j Hj; apply H; lia | apply H; lia].
Qed.

Lemma D_at_finite_iff (rsv : nat -> fval) (i : nat) :
  isfinite (D_at rsv i) = true
  <-> forall j, 1 <= j <= i -> isinf (rsv j) = false.
Proof.
  induction i as [|i IH].
  - split; [intros _ j Hj; lia | reflexivity].
  - cbn [D_at]. fold (K_at rsv (S i)).
    rewrite smooth_finite, andb_true_iff, IH, K_at_finite_iff. split.
    + intros [_ H]. exact H.
    + intros H. split; [intros j Hj; apply H; lia | exact H].
Qed.

(** X5: K[i] is finite exactly when no RSV of the rows 1 to i is
    infinite, and so is D[i]: one infinite RSV makes K and D infinite or
    NaN at its row and at every later row, and nothing else does. *)
Theorem kd_finite_iff_no_infinite_rsv (df : list Bar) (i : nat) :
  i < length df ->
  exists r,
    get_stock_data df = Some r
    /\ (isfinite (nth i (K r) NaN) = true
        <-> forall j, 1 <= j <= i -> isinf (nth j (RSV r) NaN) = false)
    /\ (isfinite (nth i (D r) NaN) = true
        <-> forall j, 1 <= j <= i -> isinf (nth j (RSV r) NaN) = false).
Proof.
  intros Hi. exists (frame_of df).
  split; [apply get_stock_data_eq; intros ->; simpl in Hi; lia|].
  cbn [K D RSV frame_of]. rewrite !nth_map_seq by exact Hi.
  split; [apply K_at_finite_iff | apply D_at_finite_iff].
Qed.

Lemma kd_finite_iff_no_infinite_rsv_witness :
  9 < length flat_then_one
  /\ exists r,
       get_stock_data flat_then_one = Some r
       /\ (isfinite (nth 9 (K r) NaN) = true
           <-> forall j, 1 <= j <= 9 -> isinf (nth j (RSV r) NaN) = false)
       /\ (isfinite (nth 9 (D r) NaN) = true
           <-> forall j, 1 <= j <= 9 -> isinf (nth j (RSV r) NaN) = false).
Proof.
  assert (H : 9 < length flat_then_one) by (simpl; lia).
  split; [exact H | exact (kd_finite_iff_no_infinite_rsv flat_then_one H)].
Defined.




(** ** The header and the page *)

Lemma iloc_neg_ok (A : Type) (s : list A) (k : nat) (d : A) :
  1 <= k <= length s -> iloc_neg s k = Ok (nth (length s - k) s d).
Proof.
  intros [H1 Hk]. unfold iloc_neg.
  assert (E : (length s <? k) = false) by (apply Nat.ltb_ge; exact Hk).
  rewrite E, (nth_error_nth' s d) by lia. reflexivity.
Qed.

Lemma iloc_neg_raise (A : Type) (s : list A) (k : nat) :
  length s < k -> iloc_neg s k = Raise IndexError.
Proof.
  intros Hk. unfold iloc_neg. apply Nat.ltb_lt in Hk. now rewrite Hk.
Qed.

Lemma quote_one_bar (r : DataFrame) :
  length (bars r) < 2 -> quote r = Raise IndexError.
Proof.
  intros Hlen. unfold quote.
  destruct (iloc_neg (map Close (bars r)) 1) as [lastv|[]]; [|reflexivity].
  rewrite iloc_neg_raise by (now rewrite length_map). reflexivity.
Qed.

Lemma quote_two_bars (r : DataFrame) :
  2 <= length (bars r) ->
  let close := map Close (bars r) in
  let lastv := nth (length close - 1) close 0%Qc in
  let prev := nth (length close - 2) close 0%Qc in
  quote r
  = Ok (mkQuote lastv (lastv - prev)
          (fmul (fdiv (Fin (lastv - prev)) (Fin prev)) (Fin (qc 100 1)))
          (if Qcgtb (lastv - prev) 0%Qc then "red" else "green")%string).
Proof.
  intros Hlen. cbv zeta. unfold quote.
  rewrite (@iloc_neg_ok _ _ 1 0%Qc) by (rewrite length_map; lia).
  rewrite (@iloc_neg_ok _ _ 2 0%Qc) by (rewrite length_map; lia).
  reflexivity.
Qed.

Lemma block_cases (title : string) (warning : option string) (df : list Bar) :
  match df with
  | [] =>
      block title warning (get_stock_data df)
      = Ok (match warning with Some w => [StWarning w] | None => [] end)
  | [_] => block title warning (get_stock_data df) = Raise IndexError
  | _ :: _ :: _ =>
      exists q fig,
        block title warning (get_stock_data df)
        = Ok [StHeader q; StPlotlyChart fig]
  end.
Proof.
  destruct df as [|b [|b' t]]; [reflexivity| |].
  - rewrite get_stock_data_eq by discriminate. unfold block.
    now rewrite quote_one_bar by (simpl; lia).
  - rewrite get_stock_data_eq by discriminate. unfold block.
    rewrite quote_two_bars by (simpl; lia). cbv zeta.
    do 2 eexists. reflexivity.
Qed.

(** X7: the page stops on IndexError exactly when one of the two
    downloads has exactly one bar ([iloc[-2]] on a one-row frame); when it
    is the index download, nothing at all has been sent to the page. *)
Theorem page_index_error_iff_one_bar (tse fut : list Bar) :
  (snd (page tse fut) = Some IndexError
   <-> length tse = 1 \/ length fut = 1)
  /\ (length tse = 1 -> fst (page tse fut) = []).
Proof.
  unfold page.
  pose proof (block_cases "加權指數" None tse) as H1.
  pose proof (block_cases "台指期連續月" (Some futures_warning) fut) as H2.
  destruct tse as [|b1 [|b1' t1]]; destruct fut as [|b2 [|b2' t2]];
    try destruct H1 as (q1 & f1 & H1); try destruct H2 as (q2 & f2 & H2);
    rewrite H1, ?H2; cbn [fst snd length]; split;
    try (split; [intros E; discriminate E | intros [E|E]; discriminate E]);
    try (split; auto; fail);
    try discriminate; try reflexivity.
Qed.

Lemma plot_chart_no_error (r : DataFrame) (title : string) :
  existsb is_error (plot_chart (Some r) title) = false.
Proof. reflexivity. Qed.

(** X8: whatever the two downloads are, no error message is sent to the
    page: [plot_chart] is never called with [None]. *)
Theorem page_never_reports_error (tse fut : list Bar) :
  existsb is_error (fst (page tse fut)) = false.
Proof.
  unfold page.
  pose proof (block_cases "加權指數" None tse) as H1.
  pose proof (block_cases "台指期連續月" (Some futures_warning) fut) as H2.
  destruct tse as [|b1 [|b1' t1]]; destruct fut as [|b2 [|b2' t2]];
    try destruct H1 as (q1 & f1 & H1); try destruct H2 as (q2 & f2 & H2);
    rewrite H1, ?H2; reflexivity.
Qed.

(** X9: when no download has exactly one bar the page runs to its end.
    An empty index download leaves no trace on the page, an empty futures
    download gives the warning alone, and a download of two bars or more
    gives a header followed by one chart. *)
Theorem page_events (tse fut : list Bar) :
  length tse <> 1 -> length fut <> 1 ->
  exists ev1 ev2,
    page tse fut = (ev1 ++ ev2, None)
    /\ (tse = [] -> ev1 = [])
    /\ (fut = [] -> ev2 = [StWarning futures_warning])
    /\ (2 <= length tse -> exists q fig, ev1 = [StHeader q; StPlotlyChart fig])
    /\ (2 <= length fut -> exists q fig, ev2 = [StHeader q; StPlotlyChart fig]).
Proof.
  intros Ht Hf. unfold page.
  pose proof (block_cases "加權指數" None tse) as H1.
  pose proof (block_cases "台指期連續月" (Some futures_warning) fut) as H2.
  destruct tse as [|b1 [|b1' t1]]; [|simpl in Ht; lia|];
    (destruct fut as [|b2 [|b2' t2]]; [|simpl in Hf; lia|]);
    try destruct H1 as (q1 & f1 & H1); try destruct H2 as (q2 & f2 & H2);
    rewrite H1, H2; do 2 eexists; (split; [reflexivity|]);
    repeat split; intros H; try discriminate H; try (simpl in H; lia);
    try reflexivity; do 2 eexists; reflexivity.
Qed.

Lemma page_events_witness :
  length (@nil Bar) <> 1 /\ length ten_bars <> 1
  /\ exists ev1 ev2,
       page [] ten_bars = (ev1 ++ ev2, None)
       /\ (@nil Bar = [] -> ev1 = [])
       /\ (ten_bars = [] -> ev2 = [StWarning futures_warning])
       /\ (2 <= length (@nil Bar) ->
           exists q fig, ev1 = [StHeader q; StPlotlyChart fig])
       /\ (2 <= length ten_bars ->
           exists q fig, ev2 = [StHeader q; StPlotlyChart fig]).
Proof.
  assert (H1 : length (@nil Bar) <> 1) by (simpl; lia).
  assert (H2 : length ten_bars <> 1) by (simpl; lia).
  split; [exact H1|]. split; [exact H2|].
  exact (@page_events [] ten_bars H1 H2).
Defined.

Lemma Qcgtb_minus (x y : Qc) : Qcgtb (x - y) 0%Qc = true <-> (y < x)%Qc.
Proof.
  unfold Qcgtb. rewrite (Qclt_minus_iff y x). fold (Qcminus x y).
  destruct (x - y ?= 0)%Qc eqn:E; split; intros H; try reflexivity;
    try discriminate.
  - apply Qceq_alt in E. rewrite E in H. discriminate H.
  - apply Qclt_alt in E. exfalso. eapply Qclt_not_le; [exact E|].
    now apply Qclt_le_weak.
  - now apply Qcgt_alt in E.
Qed.

(** X10: on a download of two bars or more the header shows the last
    close and its difference to the close before; its colour is red
    exactly when the last close is above the close before and green
    otherwise, so an unchanged close is green; the percentage is the
    quotient times 100 when the close before is not zero. *)
Theorem header_of_last_two_closes (df : list Bar) :
  2 <= length df ->
  let lastv := nth (length df - 1) (map Close df) 0%Qc in
  let prev := nth (length df - 2) (map Close df) 0%Qc in
  exists r q,
    get_stock_data df = Some r
    /\ quote r = Ok q
    /\ last_close q = lastv
    /\ change q = (lastv - prev)%Qc
    /\ (color q = "red"%string <-> (prev < lastv)%Qc)
    /\ (color q = "green"%string <-> (lastv <= prev)%Qc)
    /\ (prev <> 0%Qc -> pct q = Fin ((lastv - prev) / prev * qc 100 1)%Qc).
Proof.
  intros Hlen. cbv zeta. exists (frame_of df). eexists.
  split; [apply get_stock_data_eq; intros ->; simpl in Hlen; lia|].
  split; [apply quote_two_bars; exact Hlen|].
  cbn [last_close change color pct bars frame_of]. rewrite !length_map.
  set (lastv := nth (length df - 1) (map Close df) 0%Qc).
  set (prev := nth (length df - 2) (map Close df) 0%Qc).
  split; [reflexivity|]. split; [reflexivity|].
  pose proof (Qcgtb_minus lastv prev) as Hgt.
  split; [|split].
  - destruct (Qcgtb (lastv - prev) 0%Qc); split; intros H;
      try reflexivity; try discriminate H; try (now apply Hgt).
    apply Hgt in H. discriminate H.
  - destruct (Qcgtb (lastv - prev) 0%Qc); split; intros H;
      try reflexivity; try discriminate H.
    + exfalso. eapply Qclt_not_le; [apply Hgt; reflexivity | exact H].
    + apply Qcnot_lt_le. intros Hlt. apply Hgt in Hlt. discriminate Hlt.
  - intros Hne. unfold fdiv.
    destruct (sign prev) eqn:E; try reflexivity.
    apply sign_eq in E. contradiction.
Qed.

Lemma header_of_last_two_closes_witness :
  2 <= length unchanged_close
  /\ exists r q,
       get_stock_data unchanged_close = Some r
       /\ quote r = Ok q
       /\ color q = "green"%string.
Proof.
  assert (H : 2 <= length unchanged_close) by (simpl; lia).
  split; [exact H|].
  destruct (header_of_last_two_closes unchanged_close H)
    as (r & q & Hr & Hq & _ & _ & _ & Hgreen & _).
  exists r, q. split; [exact Hr|]. split; [exact Hq|].
  apply Hgreen. vm_compute. discriminate.
Defined.

Lemma colors_vol_length (closes opens : list Qc) :
  length closes = length opens ->
  length (colors_vol closes opens) = length closes.
Proof.
  intros H. unfold colors_vol. rewrite length_map, length_combine. lia.
Qed.

(** X11: the chart of a non-empty download has nine traces, and every
    data and colour list given to a trace has one entry per bar, so the
    four panels are aligned on the same rows. *)
Theorem chart_traces_aligned (b : Bar) (t : list Bar) (title : string) :
  exists r fig,
    get_stock_data (b :: t) = Some r
    /\ plot_chart (Some r) title = [StPlotlyChart fig]
    /\ length fig = 9
    /\ Forall (trace_aligned (length (b :: t))) fig.
Proof.
  exists (frame_of (b :: t)). eexists.
  split; [apply get_stock_data_eq; discriminate|].
  split; [reflexivity|]. split; [reflexivity|].
  set (df := b :: t).
  cbn [bars K D Hist MACD Signal frame_of].
  repeat constructor; cbn [trace_aligned];
    rewrite ?colors_vol_length, ?length_map, ?length_seq;
    unfold colors_hist;
    rewrite ?length_map, ?hist_col_length, ?macd_col_length,
      ?signal_col_length;
    auto.
Qed.

(** ** K under a steady RSV *)

Lemma K_at_steady (rsv : nat -> fval) (i n : nat) (kv rv : Qc) :
  K_at rsv i = Fin kv ->
  (forall j, i < j <= i + n -> rsv_or_50 (rsv j) = Fin rv) ->
  K_at rsv (i + n) = Fin (rv + qc 2 3 ^ n * (kv - rv))%Qc.
Proof.
  intros HK. induction n as [|n IH]; intros Hr.
  - rewrite Nat.add_0_r, HK. f_equal. cbn [Qcpower]. ring.
  - replace (i + S n) with (S (i + n)) by lia. cbn [K_at].
    rewrite IH by (intros; apply Hr; lia).
    rewrite Hr by lia. unfold smooth, fmul, fadd. f_equal.
    cbn [Qcpower].
    replace (qc 1 3) with (1 - qc 2 3)%Qc by qc_closed. ring.
Qed.

(** X12: while RSV (50 where it is NaN) stays at one finite value rv on
    the rows i+1 to i+n, K moves to it geometrically:
    K[i+n] = rv + (2/3)^n (K[i] - rv). *)
Theorem k_approaches_steady_rsv (df : list Bar) (i n : nat) :
  i + n < length df ->
  exists r,
    get_stock_data df = Some r
    /\ forall kv rv,
         nth i (K r) NaN = Fin kv ->
         (forall j, i < j <= i + n -> rsv_or_50 (nth j (RSV r) NaN) = Fin rv) ->
         nth (i + n) (K r) NaN = Fin (rv + qc 2 3 ^ n * (kv - rv))%Qc.
Proof.
  intros Hlen. exists (frame_of df).
  split; [apply get_stock_data_eq; intros ->; simpl in Hlen; lia|].
  cbn [K RSV frame_of]. intros kv rv.
  rewrite !nth_map_seq by lia. apply K_at_steady.
Qed.

Lemma k_approaches_steady_rsv_witness :
  7 + 3 < length rising_bars
  /\ exists r,
       get_stock_data rising_bars = Some r
       /\ nth 10 (K r) NaN
          = Fin (qc 100 1 + qc 2 3 ^ 3 * (qc 50 1 - qc 100 1))%Qc.
Proof.
  assert (H : 7 + 3 < length rising_bars) by (simpl; lia).
  split; [exact H|].
  destruct (@k_approaches_steady_rsv rising_bars 7 3 H) as (r & Hr & Hk).
  exists r. split; [exact Hr|].
  rewrite get_stock_data_eq in Hr by discriminate. injection Hr as <-.
  apply (Hk (qc 50 1) (qc 100 1)).
  - vm_compute. f_equal. qc_closed.
  - intros j Hj.
    assert (Hc : j = 8 \/ j = 9 \/ j = 10) by lia.
    destruct Hc as [->|[->| ->]]; vm_compute; f_equal; qc_closed.
Defined.

(** ** The first close in the MACD of every row *)

Lemma ewm_from_prev_shift (a : Qc) (xs : list Qc) :
  forall p p' i, i < length xs ->
    nth i (ewm_from a p' xs) 0%Qc
    = (nth i (ewm_from a p xs) 0 + (1 - a) ^ S i * (p' - p))%Qc.
Proof.
  induction xs as [|x t IH]; intros p p' i Hi; simpl in Hi; [lia|].
  destruct i as [|i]; cbn [ewm_from nth].
  - cbn [Qcpower]. ring.
  - rewrite (IH ((1 - a) * p + a * x)%Qc) by lia.
    cbn [Qcpower]. ring.
Qed.

Lemma ewm_mean_first_shift (s : positive) (x x' : Qc) (t : list Qc) (i : nat) :
  i < length (x :: t) ->
  nth i (ewm_mean s (x' :: t)) 0%Qc
  = (nth i (ewm_mean s (x :: t)) 0
     + (1 - alpha_of_span s) ^ i * (x' - x))%Qc.
Proof.
  intros Hi. cbn [ewm_mean]. destruct i as [|i]; cbn [nth].
  - cbn [Qcpower]. ring.
  - simpl in Hi. apply ewm_from_prev_shift. lia.
Qed.

(** X13: the first close reaches every row of MACD.  When two series
    differ in their first bar only, MACD at row i differs by
    ((11/13)^i - (25/27)^i) times the difference of the first closes. *)
Theorem macd_depends_on_first_close (b b' : Bar) (t : list Bar) :
  exists r r',
    get_stock_data (b :: t) = Some r
    /\ get_stock_data (b' :: t) = Some r'
    /\ forall i, i < length (b :: t) ->
         nth i (MACD r') 0%Qc
         = (nth i (MACD r) 0
            + (qc 11 13 ^ i - qc 25 27 ^ i) * (Close b' - Close b))%Qc.
Proof.
  exists (frame_of (b :: t)), (frame_of (b' :: t)).
  split; [apply get_stock_data_eq; discriminate|].
  split; [apply get_stock_data_eq; discriminate|].
  intros i Hi. cbn [MACD frame_of]. unfold macd_col, close_col.
  cbn [map].
  assert (Hl : i < length (Close b :: map Close t))
    by (simpl in *; now rewrite length_map).
  assert (Hl' : i < length (Close b' :: map Close t))
    by (simpl in *; now rewrite length_map).
  rewrite !series_sub_nth by (rewrite ?ewm_mean_length; auto).
  rewrite (@ewm_mean_first_shift 12 (Close b) (Close b') _ _ Hl).
  rewrite (@ewm_mean_first_shift 26 (Close b) (Close b') _ _ Hl).
  rewrite one_minus_alpha12, one_minus_alpha26. ring.
Qed.

(** ** Series shorter than the window, in binary64 *)

Lemma b64_smooth_fifty :
  B64.smooth B64.fifty B64.fifty = B64.below_fifty
  /\ B64.smooth B64.below_fifty B64.fifty = B64.below_fifty
  /\ B64.smooth B64.fifty B64.below_fifty = B64.below_fifty
  /\ B64.smooth B64.below_fifty B64.below_fifty = B64.below_fifty.
Proof. repeat split; vm_compute; reflexivity. Qed.

Example below_fifty_is_pred :
  SpecFloat.SFpred B64.prec B64.emax B64.fifty = B64.below_fifty
  /\ B64.ltb B64.below_fifty B64.fifty = true.
Proof. split; vm_compute; reflexivity. Qed.

Lemma b64_last_seed (m : nat) :
  last (B64.fifty :: repeat B64.below_fifty m) B64.nan
  = match m with O => B64.fifty | S _ => B64.below_fifty end.
Proof.
  destruct m as [|m]; [reflexivity|].
  generalize B64.fifty. induction m as [|m IH]; intros x; [reflexivity|].
  change (last (repeat B64.below_fifty (S (S m))) B64.nan = B64.below_fifty).
  apply (IH B64.below_fifty).
Qed.

Lemma b64_kd_fold_all_nan (rsvs : list B64.f64) (m : nat) :
  (forall i, 1 <= i <= m -> B64.rsv_or_50 (nth i rsvs B64.nan) = B64.fifty) ->
  fold_left (B64.kd_step rsvs) (seq 1 m) ([B64.fifty], [B64.fifty])
  = (B64.fifty :: repeat B64.below_fifty m,
     B64.fifty :: repeat B64.below_fifty m).
Proof.
  destruct b64_smooth_fifty as (H1 & H2 & H3 & H4).
  induction m as [|m IH]; intros Hr; [reflexivity|].
  rewrite seq_S, fold_left_app, IH by (intros; apply Hr; lia).
  cbn [fold_left B64.kd_step Nat.add]. rewrite !b64_last_seed, Hr by lia.
  assert (Hk : B64.smooth match m with O => B64.fifty | S _ => B64.below_fifty end
                 B64.fifty = B64.below_fifty) by (destruct m; assumption).
  rewrite Hk.
  assert (Hd : B64.smooth match m with O => B64.fifty | S _ => B64.below_fifty end
                 B64.below_fifty = B64.below_fifty) by (destruct m; assumption).
  rewrite Hd.
  rewrite <- !app_comm_cons, <- !repeat_cons. reflexivity.
Qed.

Lemma map_const_seq (A : Type) (c : A) (n : nat) :
  forall start, map (fun _ => c) (seq start n) = repeat c n.
Proof.
  induction n as [|n IH]; intros start; [reflexivity|].
  cbn [seq map repeat]. now rewrite IH.
Qed.

Lemma b64_rolling_short (agg : B64.f64 -> B64.f64 -> B64.f64) (w : nat)
  (xs : list B64.f64) :
  length xs < w -> B64.rolling agg w xs = repeat B64.nan (length xs).
Proof.
  intros Hlen. unfold B64.rolling.
  rewrite (map_ext_in _ (fun _ => B64.nan)).
  - apply map_const_seq.
  - intros i Hi. apply in_seq in Hi.
    assert (E : (S i <? w) = true) by (apply Nat.ltb_lt; lia).
    now rewrite E.
Qed.

Lemma b64_rsv_cell_nan (c hi : B64.f64) : B64.rsv_cell c B64.nan hi = B64.nan.
Proof. destruct c; reflexivity. Qed.

Lemma b64_rsv_column_nan (cs : list B64.f64) :
  forall n his,
    length cs = n -> length his = n ->
    B64.rsv_column cs (repeat B64.nan n) his = repeat B64.nan n.
Proof.
  induction cs as [|c cs IH]; intros [|n] [|h his] Hc Hh; simpl in Hc, Hh;
    try lia; try reflexivity.
  cbn [repeat B64.rsv_column]. rewrite b64_rsv_cell_nan, IH by lia.
  reflexivity.
Qed.

Lemma b64_kd_columns_short (df : list B64.Bar) :
  df <> [] -> length df < 9 ->
  B64.kd_columns df
  = Some (B64.mkKD df (repeat B64.nan (length df))
            (repeat B64.nan (length df)) (repeat B64.nan (length df))
            (B64.fifty :: repeat B64.below_fifty (length df - 1))
            (B64.fifty :: repeat B64.below_fifty (length df - 1))).
Proof.
  intros Hne Hlen. destruct df as [|b t]; [congruence|].
  unfold B64.kd_columns.
  rewrite !b64_rolling_short by (rewrite length_map; exact Hlen).
  rewrite !length_map.
  rewrite b64_rsv_column_nan by (now rewrite ?length_map, ?repeat_length).
  unfold B64.kd_loop. rewrite b64_kd_fold_all_nan; [reflexivity|].
  intros i Hi. rewrite nth_repeat. reflexivity.
Qed.

(** C10, counterexample: on two bars (closes 100 and 101) the binary64
    value of K[1] is (2/3) * 50 + (1/3) * 50 = 49.99999999999999, not 50. *)
Lemma constant_50_claim_fails : ~ B64.constant_50_claim B64.two_bars.
Proof.
  intros H. destruct H as (r & Hr & Hall); [simpl; lia|].
  rewrite b64_kd_columns_short in Hr by (try discriminate; simpl; lia).
  injection Hr as <-.
  destruct (Hall 1) as (_ & _ & _ & HK & _); [simpl; lia|].
  vm_compute in HK. discriminate.
Qed.

(** C10, amended: on a non-empty series of fewer than 9 bars the rolling
    minimum, the rolling maximum and RSV are NaN at every index, so every
    RSV counts as 50; K[0] = D[0] = 50, and at every index from 1 on K and
    D are 49.99999999999999, the double next below 50: the KD lines are
    constant from index 1 on. *)
Theorem short_series_kd_binary64 (df : list B64.Bar) :
  df <> [] -> length df < 9 ->
  exists r,
    B64.kd_columns df = Some r
    /\ length (B64.K r) = length df
    /\ length (B64.D r) = length df
    /\ (forall i, i < length df ->
          nth i (B64.low_min r) B64.fifty = B64.nan
          /\ nth i (B64.high_max r) B64.fifty = B64.nan
          /\ nth i (B64.RSV r) B64.fifty = B64.nan)
    /\ nth 0 (B64.K r) B64.nan = B64.fifty
    /\ nth 0 (B64.D r) B64.nan = B64.fifty
    /\ (forall i, 1 <= i < length df ->
          nth i (B64.K r) B64.nan = B64.below_fifty
          /\ nth i (B64.D r) B64.nan = B64.below_fifty)
    /\ B64.ltb B64.below_fifty B64.fifty = true.
Proof.
  intros Hne Hlen. eexists.
  split; [now apply b64_kd_columns_short|].
  cbn [B64.K B64.D B64.low_min B64.high_max B64.RSV].
  assert (Hpos : 1 <= length df) by (destruct df; [congruence | simpl; lia]).
  split; [simpl; rewrite repeat_length; lia|].
  split; [simpl; rewrite repeat_length; lia|].
  split; [intros i Hi; rewrite nth_repeat_lt by exact Hi; auto|].
  split; [reflexivity|]. split; [reflexivity|].
  split; [|reflexivity].
  intros i [H1 Hi]. destruct i as [|j]; [lia|]. cbn [nth].
  rewrite nth_repeat_lt by lia. auto.
Qed.

Lemma short_series_kd_binary64_witness :
  B64.two_bars <> []
  /\ length B64.two_bars < 9
  /\ exists r,
       B64.kd_columns B64.two_bars = Some r
       /\ nth 1 (B64.K r) B64.nan = B64.below_fifty
       /\ nth 1 (B64.D r) B64.nan = B64.below_fifty.
Proof.
  assert (Hne : B64.two_bars <> []) by discriminate.
  assert (Hlen : length B64.two_bars < 9) by (simpl; lia).
  split; [exact Hne|]. split; [exact Hlen|].
  destruct (short_series_kd_binary64 Hne Hlen)
    as (r & Hr & _ & _ & _ & _ & _ & Hk & _).
  exists r. split; [exact Hr|]. apply Hk. simpl. lia.
Defined.
